(** * sg_inspector: the exposure-evaluation engine of [openstack.go]

    A shallow embedding of the decision logic of the security-group checker:
    the IP classifier [isPrivateIP], the allow-rule matcher [matchAllowdRule],
    tenant resolution [getProjectNameFromID], the open-access evaluator
    [isFullOpen], the policy evaluator [matchPolicy] and the part of [Run]
    that drives them.  Go strings are byte strings ([string]); Go [int] values
    are [Z] (no arithmetic on them gets near the 64-bit bounds); a [net.IP] is
    the list of its bytes, the nil slice being the empty list.  Logging
    ([logrus]) and the lines written to standard output are not modelled. *)

From Stdlib Require Import ZArith List Bool Lia.
From Stdlib Require Import Strings.String Strings.Ascii Numbers.DecimalString.
From Stdlib Require Import Numbers.DecimalPos Numbers.DecimalZ.
Import ListNotations.

Open Scope string_scope.
Open Scope list_scope.
Open Scope Z_scope.

(** ** Errors *)

(** Go's [error] values: a message, possibly wrapped with context by
    [errors.Wrapf]. *)
Inductive error : Type :=
| ErrorString (msg : string)
| Wrapf (cause : error) (context : string).

(** ** Strings *)

Module strings.

Definition is_digit (c : ascii) : bool :=
  let n := Z.of_nat (nat_of_ascii c) in (48 <=? n) && (n <=? 57).

Definition is_dash (c : ascii) : bool := Ascii.eqb c "-"%char.

Fixpoint drop (n : nat) (s : string) : string :=
  match n, s with
  | O, _ => s
  | S n', String _ s' => drop n' s'
  | S _, EmptyString => EmptyString
  end.

Fixpoint all (p : ascii -> bool) (s : string) : bool :=
  match s with
  | EmptyString => true
  | String c s' => p c && all p s'
  end.

(** The longest prefix of [s] made of characters satisfying [p]. *)
Fixpoint takeWhile (p : ascii -> bool) (s : string) : string :=
  match s with
  | EmptyString => EmptyString
  | String c s' => if p c then String c (takeWhile p s') else EmptyString
  end.

End strings.

Module strconv.

(** [strconv.Itoa]: the decimal text of an integer, with a leading [-] for
    negative numbers and ["0"] for zero. *)
Definition Itoa (n : Z) : string := NilZero.string_of_int (Z.to_int n).

End strconv.

(** ** The parts of Go's [net] package that the classifier calls

    The standard library is not part of the repository; these definitions follow
    [net/ip.go] and [net/parse.go] as of Go 1.17 (where an octet with a
    leading zero is rejected). *)

Module net.

Definition IP := list Z.

Definition IPv4len : nat := 4.
Definition IPv6len : nat := 16.

Record IPNet := { IPNet_IP : IP; Mask : list Z }.

Definition v4InV6Prefix : list Z := [0; 0; 0; 0; 0; 0; 0; 0; 0; 0; 255; 255].

Definition IPv4 (a b c d : Z) : IP := v4InV6Prefix ++ [a; b; c; d].

Definition IPv6loopback : IP := [0; 0; 0; 0; 0; 0; 0; 0; 0; 0; 0; 0; 0; 0; 0; 1].

Definition byteAt (ip : list Z) (i : nat) : Z := nth i ip 0.

Definition bytesEqual (a b : list Z) : bool :=
  if list_eq_dec Z.eq_dec a b then true else false.

Definition isZeros (p : list Z) : bool := forallb (Z.eqb 0) p.

(** [ip.To4()]; the nil result is [[]]. *)
Definition To4 (ip : IP) : IP :=
  if Nat.eqb (List.length ip) IPv4len then ip
  else if Nat.eqb (List.length ip) IPv6len
          && isZeros (firstn 10 ip)
          && (byteAt ip 10 =? 255) && (byteAt ip 11 =? 255)
       then skipn 12 ip
       else [].

Definition Equal (ip x : IP) : bool :=
  if Nat.eqb (List.length ip) (List.length x) then bytesEqual ip x
  else if Nat.eqb (List.length ip) IPv4len && Nat.eqb (List.length x) IPv6len
       then bytesEqual (firstn 12 x) v4InV6Prefix && bytesEqual ip (skipn 12 x)
  else if Nat.eqb (List.length ip) IPv6len && Nat.eqb (List.length x) IPv4len
       then bytesEqual (firstn 12 ip) v4InV6Prefix && bytesEqual (skipn 12 ip) x
  else false.

Definition IsLoopback (ip : IP) : bool :=
  match To4 ip with
  | [] => Equal ip IPv6loopback
  | ip4 => byteAt ip4 0 =? 127
  end.

Definition IsLinkLocalMulticast (ip : IP) : bool :=
  match To4 ip with
  | [] => Nat.eqb (List.length ip) IPv6len
          && (byteAt ip 0 =? 255) && (Z.land (byteAt ip 1) 15 =? 2)
  | ip4 => (byteAt ip4 0 =? 224) && (byteAt ip4 1 =? 0) && (byteAt ip4 2 =? 0)
  end.

Definition IsLinkLocalUnicast (ip : IP) : bool :=
  match To4 ip with
  | [] => Nat.eqb (List.length ip) IPv6len
          && (byteAt ip 0 =? 254) && (Z.land (byteAt ip 1) 192 =? 128)
  | ip4 => (byteAt ip4 0 =? 169) && (byteAt ip4 1 =? 254)
  end.

(** *** Parsing *)

Definition big : Z := 16777215.

Definition digitVal (c : ascii) : Z := Z.of_nat (nat_of_ascii c) - 48.

(** [dtoi]: number, characters consumed, success. *)
Fixpoint dtoi_from (s : string) (n : Z) (i : nat) : Z * nat * bool :=
  match s with
  | String c s' =>
      if strings.is_digit c then
        let n' := n * 10 + digitVal c in
        if big <=? n' then (big, i, false) else dtoi_from s' n' (S i)
      else if Nat.eqb i 0 then (0, O, false) else (n, i, true)
  | EmptyString => if Nat.eqb i 0 then (0, O, false) else (n, i, true)
  end.

Definition dtoi (s : string) : Z * nat * bool := dtoi_from s 0 O.

Definition hexVal (c : ascii) : option Z :=
  let n := Z.of_nat (nat_of_ascii c) in
  if (48 <=? n) && (n <=? 57) then Some (n - 48)
  else if (97 <=? n) && (n <=? 102) then Some (n - 97 + 10)
  else if (65 <=? n) && (n <=? 70) then Some (n - 65 + 10)
  else None.

(** [xtoi]: the hexadecimal counterpart of [dtoi]. *)
Fixpoint xtoi_from (s : string) (n : Z) (i : nat) : Z * nat * bool :=
  match s with
  | String c s' =>
      match hexVal c with
      | Some d =>
          let n' := n * 16 + d in
          if big <=? n' then (0, i, false) else xtoi_from s' n' (S i)
      | None => if Nat.eqb i 0 then (0, i, false) else (n, i, true)
      end
  | EmptyString => if Nat.eqb i 0 then (0, i, false) else (n, i, true)
  end.

Definition xtoi (s : string) : Z * nat * bool := xtoi_from s 0 O.

Definition headIs (c : ascii) (s : string) : bool :=
  match s with
  | String d _ => Ascii.eqb d c
  | EmptyString => false
  end.

(** The loop of [parseIPv4]: [i] octets are already in [p] (in order), and
    [k] more are expected. *)
Fixpoint parseIPv4_octets (k : nat) (i : nat) (s : string) (p : list Z)
  : option (list Z * string) :=
  match k with
  | O => Some (p, s)
  | S k' =>
      if Nat.eqb (String.length s) 0 then None
      else
        let dotOk := Nat.eqb i 0 || headIs "." s in
        let s1 := if Nat.eqb i 0 then s else strings.drop 1 s in
        if negb dotOk then None
        else
          let '(n, c, ok) := dtoi s1 in
          if negb ok || (255 <? n) then None
          else if Nat.ltb 1 c && headIs "0" s1 then None
          else parseIPv4_octets k' (S i) (strings.drop c s1) (p ++ [n])
  end.

Definition parseIPv4 (s : string) : IP :=
  match parseIPv4_octets IPv4len O s [] with
  | Some ([a; b; c; d], EmptyString) => IPv4 a b c d
  | _ => []
  end.

(** The loop of [parseIPv6].  [acc] holds the bytes written so far, so the
    source's index [i] is [List.length acc]; [ellipsis] is [None] for the
    source's [-1].  Every iteration writes two bytes or leaves the loop, so
    nine rounds of [fuel] are never used up. *)
Fixpoint parseIPv6_loop (fuel : nat) (acc : list Z) (ellipsis : option nat)
         (s : string) : option (list Z * option nat * string) :=
  match fuel with
  | O => Some (acc, ellipsis, s)
  | S fuel' =>
      let i := List.length acc in
      if negb (Nat.ltb i IPv6len) then Some (acc, ellipsis, s)
      else
        let '(n, c, ok) := xtoi s in
        if negb ok || (65535 <? n) then None
        else if Nat.ltb c (String.length s) && headIs "." (strings.drop c s) then
          if (match ellipsis with None => true | Some _ => false end)
             && negb (Nat.eqb i (IPv6len - IPv4len)) then None
          else if Nat.ltb IPv6len (i + IPv4len) then None
          else match parseIPv4 s with
               | [] => None
               | ip4 => Some (acc ++ skipn 12 ip4, ellipsis, EmptyString)
               end
        else
          let acc' := acc ++ [Z.land (Z.shiftr n 8) 255; Z.land n 255] in
          let s1 := strings.drop c s in
          if Nat.eqb (String.length s1) 0 then Some (acc', ellipsis, s1)
          else if negb (headIs ":" s1) || Nat.eqb (String.length s1) 1 then None
          else
            let s2 := strings.drop 1 s1 in
            if headIs ":" s2 then
              match ellipsis with
              | Some _ => None
              | None =>
                  let s3 := strings.drop 1 s2 in
                  if Nat.eqb (String.length s3) 0
                  then Some (acc', Some (List.length acc'), s3)
                  else parseIPv6_loop fuel' acc' (Some (List.length acc')) s3
              end
            else parseIPv6_loop fuel' acc' ellipsis s2
  end.

Definition parseIPv6 (s : string) : IP :=
  let leading := headIs ":" s && headIs ":" (strings.drop 1 s) in
  let s0 := if leading then strings.drop 2 s else s in
  if leading && Nat.eqb (String.length s0) 0 then repeat 0 IPv6len
  else
    match parseIPv6_loop 9 [] (if leading then Some O else None) s0 with
    | None => []
    | Some (acc, ellipsis, rest) =>
        if negb (Nat.eqb (String.length rest) 0) then []
        else
          let i := List.length acc in
          if Nat.ltb i IPv6len then
            match ellipsis with
            | None => []
            | Some e => firstn e acc ++ repeat 0 (IPv6len - i) ++ skipn e acc
            end
          else
            match ellipsis with
            | Some _ => []
            | None => acc
            end
    end.

(** [ParseIP]: the first [.] or [:] of the text decides which literal is
    parsed; a text with neither gives nil. *)
Fixpoint ParseIP_scan (rest s : string) : IP :=
  match rest with
  | EmptyString => []
  | String c rest' =>
      if Ascii.eqb c "." then parseIPv4 s
      else if Ascii.eqb c ":" then parseIPv6 s
      else ParseIP_scan rest' s
  end.

Definition ParseIP (s : string) : IP := ParseIP_scan s s.

(** *** Networks *)

Fixpoint CIDRMask_bytes (l : nat) (n : Z) : list Z :=
  match l with
  | O => []
  | S l' =>
      if 8 <=? n then 255 :: CIDRMask_bytes l' (n - 8)
      else Z.lxor 255 (Z.shiftr 255 n) :: CIDRMask_bytes l' 0
  end.

Definition CIDRMask (ones bits : Z) : list Z :=
  if negb (bits =? 8 * Z.of_nat IPv4len) && negb (bits =? 8 * Z.of_nat IPv6len) then []
  else if (ones <? 0) || (bits <? ones) then []
  else CIDRMask_bytes (Z.to_nat (bits / 8)) ones.

Definition allFF (b : list Z) : bool := forallb (Z.eqb 255) b.

Fixpoint andBytes (ip mask : list Z) : list Z :=
  match ip, mask with
  | a :: ip', m :: mask' => Z.land a m :: andBytes ip' mask'
  | _, _ => []
  end.

(** [ip.Mask(mask)]. *)
Definition IP_Mask (ip : IP) (mask : list Z) : IP :=
  let mask :=
    if Nat.eqb (List.length mask) IPv6len && Nat.eqb (List.length ip) IPv4len
       && allFF (firstn 12 mask)
    then skipn 12 mask else mask in
  let ip :=
    if Nat.eqb (List.length mask) IPv4len && Nat.eqb (List.length ip) IPv6len
       && bytesEqual (firstn 12 ip) v4InV6Prefix
    then skipn 12 ip else ip in
  if negb (Nat.eqb (List.length ip) (List.length mask)) then []
  else andBytes ip mask.

Fixpoint indexByte (s : string) (c : ascii) : option nat :=
  match s with
  | EmptyString => None
  | String d s' =>
      if Ascii.eqb d c then Some O
      else match indexByte s' c with
           | Some i => Some (S i)
           | None => None
           end
  end.

Definition ParseError (text : string) : error :=
  ErrorString ("invalid CIDR address: " ++ text)%string.

(** [ParseCIDR], restricted to the network it returns (the callers here
    discard the address). *)
Definition ParseCIDR (s : string) : error + IPNet :=
  match indexByte s "/" with
  | None => inl (ParseError s)
  | Some i =>
      let addr := String.substring 0 i s in
      let mask := strings.drop (S i) s in
      let ip4 := parseIPv4 addr in
      let iplen := match ip4 with [] => IPv6len | _ => IPv4len end in
      let ip := match ip4 with [] => parseIPv6 addr | _ => ip4 end in
      let '(n, c, ok) := dtoi mask in
      if match ip with [] => true | _ => false end
         || negb ok || negb (Nat.eqb c (String.length mask))
         || (n <? 0) || (8 * Z.of_nat iplen <? n)
      then inl (ParseError s)
      else
        let m := CIDRMask n (8 * Z.of_nat iplen) in
        inr {| IPNet_IP := IP_Mask ip m; Mask := m |}
  end.

Definition networkNumberAndMask (n : IPNet) : IP * list Z :=
  let ip4 := To4 (IPNet_IP n) in
  let ip := match ip4 with [] => IPNet_IP n | _ => ip4 end in
  if match ip4 with [] => negb (Nat.eqb (List.length ip) IPv6len) | _ => false end
  then ([], [])
  else
    let m := Mask n in
    if Nat.eqb (List.length m) IPv4len then
      if negb (Nat.eqb (List.length ip) IPv4len) then ([], []) else (ip, m)
    else if Nat.eqb (List.length m) IPv6len then
      if Nat.eqb (List.length ip) IPv4len then (ip, skipn 12 m) else (ip, m)
    else ([], []).

Fixpoint sameNetwork (nn m ip : list Z) : bool :=
  match nn, m, ip with
  | a :: nn', k :: m', b :: ip' =>
      if Z.land a k =? Z.land b k then sameNetwork nn' m' ip' else false
  | _, _, _ => true
  end.

(** [n.Contains(ip)]. *)
Definition Contains (n : IPNet) (ip : IP) : bool :=
  let '(nn, m) := networkNumberAndMask n in
  let ip := match To4 ip with [] => ip | x => x end in
  if negb (Nat.eqb (List.length ip) (List.length nn)) then false
  else sameNetwork nn m ip.

End net.

(** ** The IP classifier *)

(** The loop of [isPrivateIP] that parses the three hard-coded ranges into
    [privateIPBlocks]. *)
Fixpoint parseBlocks (cidrs : list string) (privateIPBlocks : list net.IPNet)
  : error + list net.IPNet :=
  match cidrs with
  | [] => inr privateIPBlocks
  | cidr :: rest =>
      match net.ParseCIDR cidr with
      | inl err => inl err
      | inr block => parseBlocks rest (privateIPBlocks ++ [block])
      end
  end.

Definition privateCIDRs : list string :=
  ["10.0.0.0/8"; "172.16.0.0/12"; "192.168.0.0/16"].

(** [isPrivateIP(ip)]: the pair of the boolean and the error it returns. *)
Definition isPrivateIP (ip : net.IP) : bool * option error :=
  if net.IsLoopback ip || net.IsLinkLocalUnicast ip || net.IsLinkLocalMulticast ip
  then (true, None)
  else
    match parseBlocks privateCIDRs [] with
    | inl err => (true, Some err)
    | inr privateIPBlocks =>
        if existsb (fun block => net.Contains block ip) privateIPBlocks
        then (true, None)
        else (false, None)
    end.

(** ** The regular expression of the allow-rule matcher *)

Module regexp.

(** The pattern compiled by [matchAllowdRule] is a group of any number of
    digits, a [-], and a second group of any number of digits.  [matchHere]
    is a match of it that starts at the first character of [s], as the pair
    of its two groups.  The first group is greedy: it takes a digit
    and goes on whenever that still leads to a match, and is empty before a
    [-] otherwise; the second group is the longest run of digits after the
    [-]. *)
Fixpoint matchHere (s : string) : option (string * string) :=
  match s with
  | EmptyString => None
  | String c s' =>
      match (if strings.is_digit c then matchHere s' else None) with
      | Some (g1, g2) => Some (String c g1, g2)
      | None =>
          if strings.is_dash c
          then Some (EmptyString, strings.takeWhile strings.is_digit s')
          else None
      end
  end.

(** The leftmost match, which is [FindAllStringSubmatch(s, -1)[0]];
    [MatchString] holds when there is one. *)
Fixpoint FindStringSubmatch (s : string) : option (string * string) :=
  match s with
  | EmptyString => None
  | String _ s' =>
      match matchHere s with
      | Some m => Some m
      | None => FindStringSubmatch s'
      end
  end.

Definition MatchString (s : string) : bool :=
  match FindStringSubmatch s with
  | Some _ => true
  | None => false
  end.

End regexp.

(** ** The inventory and the configuration *)

Module rules.
Record SecGroupRule := {
  Direction : string;
  Protocol : string;
  RemoteIPPrefix : string;
  PortRangeMin : Z;
  PortRangeMax : Z
}.
End rules.

Module groups.
(** [CreatedAt] is the creation time in nanoseconds since the epoch. *)
Record SecGroup := {
  ID : string;
  Name : string;
  TenantID : string;
  Rules : list rules.SecGroupRule;
  CreatedAt : Z
}.
End groups.

Module ports.
Record IP := { SubnetID : string; IPAddress : string }.
Record Port := {
  ID : string;
  FixedIPs : list IP;
  SecurityGroups : list string
}.
End ports.

Module floatingips.
Record FloatingIP := { ID : string; PortID : string }.
End floatingips.

Module projects.
Record Project := { ID : string; Name : string }.
End projects.

Module slack.
Record AttachmentField := { Title : string; Value : string; Short : bool }.
Record Attachment := { Color : string; Fields : list AttachmentField }.
Record PostMessageParameters := { Username : string; IconEmoji : string }.
End slack.

(** The configuration types are declared in another file of the package; these
    records have the fields that [openstack.go] reads and writes. *)
Record Rule := {
  Rule_Tenant : string;
  Rule_TenantID : string;
  Rule_SG : string;
  Rule_Port : list string
}.

Record Policy := {
  Policy_Policy : string;
  Policy_Data : string;
  Policy_PrefixMessage : string;
  Policy_SuffixMessage : string
}.

Record Config := {
  Cfg_Rules : list Rule;
  Cfg_Policies : list Policy;
  Cfg_DryRun : bool;
  Cfg_PrefixMessage : string;
  Cfg_SuffixMessage : string;
  Cfg_Username : string;
  Cfg_IconEmoji : string;
  Cfg_SlackChannel : string
}.

(** The fields of the checker that the evaluation reads and writes. *)
Record OpenStackSecurityGroupChecker := {
  Cfg : Config;
  Attachments : list slack.Attachment;
  Projects : list projects.Project
}.

Definition set_Attachments (checker : OpenStackSecurityGroupChecker)
           (a : list slack.Attachment) : OpenStackSecurityGroupChecker :=
  {| Cfg := Cfg checker; Attachments := a; Projects := Projects checker |}.

(** ** Small helpers of the source *)

Fixpoint contain (s : list string) (e : string) : bool :=
  match s with
  | [] => false
  | a :: s' => if String.eqb a e then true else contain s' e
  end.

Fixpoint contains (slice : list string) (item : string) : bool :=
  match slice with
  | [] => false
  | a :: slice' => if String.eqb a item then true else contains slice' item
  end.

Fixpoint getProjectNameFromID (id : string) (ps : list projects.Project)
  : string * option error :=
  match ps with
  | [] => (EmptyString, Some (ErrorString ("Not found project: " ++ id)%string))
  | p :: ps' =>
      if String.eqb (projects.ID p) id then (projects.Name p, None)
      else getProjectNameFromID id ps'
  end.

(** [fmt.Sprintf("%d-%d", min, max)]. *)
Definition portRangeText (rule : rules.SecGroupRule) : string :=
  (strconv.Itoa (rules.PortRangeMin rule) ++ "-"
     ++ strconv.Itoa (rules.PortRangeMax rule))%string.

(** ** The allow-rule matcher *)

(** The inner loop of [matchAllowdRule] over the ports of one entry: [true]
    when it returns [true] from the function. *)
Fixpoint matchPortRange (Port : list string) (rule : rules.SecGroupRule) : bool :=
  match Port with
  | [] => false
  | port :: rest =>
      if regexp.MatchString port then
        match regexp.FindStringSubmatch port with
        | Some (g1, g2) =>
            if String.eqb g1 (strconv.Itoa (rules.PortRangeMin rule))
               && String.eqb g2 (strconv.Itoa (rules.PortRangeMax rule))
            then true
            else matchPortRange rest rule
        | None => matchPortRange rest rule
        end
      else matchPortRange rest rule
  end.

Fixpoint matchAllowdRule (allowdRules : list Rule) (sg : groups.SecGroup)
         (rule : rules.SecGroupRule) : bool :=
  match allowdRules with
  | [] => false
  | allowdRule :: rest =>
      if String.eqb (Rule_TenantID allowdRule) (groups.TenantID sg)
         && String.eqb (Rule_SG allowdRule) (groups.Name sg)
      then
        if matchPortRange (Rule_Port allowdRule) rule then true
        else if contains (Rule_Port allowdRule) (strconv.Itoa (rules.PortRangeMin rule))
                && contains (Rule_Port allowdRule) (strconv.Itoa (rules.PortRangeMax rule))
        then true
        else matchAllowdRule rest sg rule
      else matchAllowdRule rest sg rule
  end.

(** ** The open-access evaluator *)

(** How the loop labelled [IGNOREPORT] is left: it runs on ([ScanNext]), it is
    broken out of with [ignorePort = false], or the function returns an
    error. *)
Inductive scan : Type :=
| ScanNext
| BreakIGNOREPORT
| ReturnErr (err : error).

Definition fipBound (fips : list floatingips.FloatingIP) (port : ports.Port) : bool :=
  existsb (fun fip => String.eqb (floatingips.PortID fip) (ports.ID port)) fips.

Fixpoint scanFixedIPs (ips : list ports.IP) : scan :=
  match ips with
  | [] => ScanNext
  | ip :: rest =>
      match isPrivateIP (net.ParseIP (ports.IPAddress ip)) with
      | (_, Some err) => ReturnErr err
      | (isPrivate, None) =>
          if negb isPrivate then BreakIGNOREPORT else scanFixedIPs rest
      end
  end.

Fixpoint scanSecurityGroups (sgids : list string) (sg : groups.SecGroup)
         (port : ports.Port) (fips : list floatingips.FloatingIP) : scan :=
  match sgids with
  | [] => ScanNext
  | sgid :: rest =>
      if String.eqb sgid (groups.ID sg) then
        if fipBound fips port then BreakIGNOREPORT
        else
          match scanFixedIPs (ports.FixedIPs port) with
          | ScanNext => scanSecurityGroups rest sg port fips
          | r => r
          end
      else scanSecurityGroups rest sg port fips
  end.

Fixpoint scanPorts (ps : list ports.Port) (sg : groups.SecGroup)
         (fips : list floatingips.FloatingIP) : scan :=
  match ps with
  | [] => ScanNext
  | port :: rest =>
      match scanSecurityGroups (ports.SecurityGroups port) sg port fips with
      | ScanNext => scanPorts rest sg fips
      | r => r
      end
  end.

Definition isViolation (rule : rules.SecGroupRule) : bool :=
  String.eqb (rules.RemoteIPPrefix rule) "0.0.0.0/0"
  && String.eqb (rules.Protocol rule) "tcp"
  && String.eqb (rules.Direction rule) "ingress".

Definition field (title value : string) : slack.AttachmentField :=
  {| slack.Title := title; slack.Value := value; slack.Short := false |}.

Definition shortField (title value : string) : slack.AttachmentField :=
  {| slack.Title := title; slack.Value := value; slack.Short := true |}.

(** The attachment that [isFullOpen] builds for one rule. *)
Definition openAccessAttachment (projectName : string) (sg : groups.SecGroup)
           (rule : rules.SecGroupRule) : slack.Attachment :=
  {| slack.Color := "#ff6347";
     slack.Fields := [ field "Tenant" projectName;
                       field "ID" (groups.ID sg);
                       field "Name" (groups.Name sg);
                       field "PortRange" (portRangeText rule) ] |}.

(** The loop of [isFullOpen] over the rules of the group. *)
Fixpoint scanRules (checker : OpenStackSecurityGroupChecker) (sg : groups.SecGroup)
         (rs : list rules.SecGroupRule) (allowed_sg : list string) (isFullOpen : bool)
  : bool * OpenStackSecurityGroupChecker :=
  match rs with
  | [] => (isFullOpen, checker)
  | rule :: rest =>
      if isViolation rule then
        if negb (matchAllowdRule (Cfg_Rules (Cfg checker)) sg rule) then
          if contain allowed_sg (groups.ID sg)
          then scanRules checker sg rest allowed_sg isFullOpen
          else
            let projectName :=
              match getProjectNameFromID (groups.TenantID sg) (Projects checker) with
              | (_, Some _) => groups.TenantID sg
              | (name, None) => name
              end in
            let attachment := openAccessAttachment projectName sg rule in
            scanRules (set_Attachments checker (Attachments checker ++ [attachment]))
                      sg rest allowed_sg true
        else scanRules checker sg rest allowed_sg isFullOpen
      else scanRules checker sg rest allowed_sg isFullOpen
  end.

(** [checker.isFullOpen(sg, ports, fips, allowed_sg)]: the returned pair and
    the checker afterwards. *)
Definition isFullOpen (checker : OpenStackSecurityGroupChecker) (sg : groups.SecGroup)
           (ps : list ports.Port) (fips : list floatingips.FloatingIP)
           (allowed_sg : list string)
  : (bool * option error) * OpenStackSecurityGroupChecker :=
  match scanPorts ps sg fips with
  | ReturnErr err => ((false, Some err), checker)
  | ScanNext => ((false, None), checker)
  | BreakIGNOREPORT =>
      let '(isFullOpen, checker') := scanRules checker sg (groups.Rules sg) allowed_sg false in
      ((isFullOpen, None), checker')
  end.

(** The first loop of [Run] over the security groups: the flag
    [existNoguardSG] and the error of an early return. *)
Fixpoint openAccessPass (checker : OpenStackSecurityGroupChecker)
         (securityGroups : list groups.SecGroup) (ps : list ports.Port)
         (fips : list floatingips.FloatingIP) (allowed_sg : list string)
         (existNoguardSG : bool)
  : (bool * option error) * OpenStackSecurityGroupChecker :=
  match securityGroups with
  | [] => ((existNoguardSG, None), checker)
  | sg :: rest =>
      match isFullOpen checker sg ps fips allowed_sg with
      | ((_, Some err), checker') => ((existNoguardSG, Some err), checker')
      | ((isFullOpen, None), checker') =>
          openAccessPass checker' rest ps fips allowed_sg
                         (if isFullOpen then true else existNoguardSG)
      end
  end.

(** ** The policy evaluator and [Run]

    The collaborators (the policy engine, the chat service, the inventory and
    the allow-list store) are the variables of this section.  What the program
    asks of the engine and of the chat service is recorded, in order, in a
    trace. *)

(** The value bound to [x] in one result of the query: a boolean, or anything
    else (on which the type assertion of [matchPolicy] panics). *)
Inductive value : Type :=
| VBool (b : bool)
| VOther.

Inductive event : Type :=
| QueryEval (paths : list string) (sg : groups.SecGroup)
| PostMessage (channel text : string) (attachments : list slack.Attachment)
              (params : slack.PostMessageParameters).

(** The checker together with the trace of the calls made so far. *)
Record state := { chk : OpenStackSecurityGroupChecker; trace : list event }.

Definition newline : string := String (ascii_of_nat 10) EmptyString.

Section Engine.

(** [t.Local().String()] of a creation time. *)
Variable timeLocalString : Z -> string.
(** The error, if any, of turning a group into the input of the query
    ([json.Marshal] followed by [json.Unmarshal]). *)
Variable jsonFacts : groups.SecGroup -> option error.
(** [rego.New(...).PrepareForEval] on the given paths. *)
Variable PrepareForEval : list string -> option error.
(** [query.Eval] of the query prepared from the paths, on the facts of a
    group: an error, or the values bound to [x], one per result. *)
Variable Eval : list string -> groups.SecGroup -> error + list value.
(** [api.PostMessage]; its answer may depend on everything done before. *)
Variable slackPostMessage :
  list event -> string -> string -> list slack.Attachment
  -> slack.PostMessageParameters -> option error.

Definition ruleLine (rule : rules.SecGroupRule) : string :=
  (rules.Direction rule ++ ", IP Range: " ++ rules.RemoteIPPrefix rule
     ++ ", Port Range: " ++ portRangeText rule ++ newline)%string.

Fixpoint rulesDump (rs : list rules.SecGroupRule) (value : string) : string :=
  match rs with
  | [] => value
  | rule :: rest => rulesDump rest (value ++ ruleLine rule)%string
  end.

(** The attachment that [matchPolicy] builds for a group. *)
Definition policyAttachment (projectName : string) (sg : groups.SecGroup)
  : slack.Attachment :=
  {| slack.Color := "#ff6347";
     slack.Fields :=
       [ field "Name" (groups.Name sg);
         shortField "Tenant" projectName;
         shortField "ID" (groups.ID sg);
         field "Created" (timeLocalString (groups.CreatedAt sg)) ]
       ++ [ field "Rules" (rulesDump (groups.Rules sg) EmptyString) ] |}.

Definition record (ev : event) (st : state) : state :=
  {| chk := chk st; trace := trace st ++ [ev] |}.

Definition appendAttachment (a : slack.Attachment) (st : state) : state :=
  {| chk := set_Attachments (chk st) (Attachments (chk st) ++ [a]);
     trace := trace st |}.

(** [checker.matchPolicy(query, sg)]; [None] is a panic. *)
Definition matchPolicy (query : list string) (sg : groups.SecGroup) (st : state)
  : option (bool * option error) * state :=
  match jsonFacts sg with
  | Some err => (Some (false, Some err), st)
  | None =>
      let st1 := record (QueryEval query sg) st in
      match Eval query sg with
      | inl err => (Some (false, Some err), st1)
      | inr [] => (Some (false, None), st1)
      | inr (VOther :: _) => (None, st1)
      | inr (VBool false :: _) => (Some (false, None), st1)
      | inr (VBool true :: _) =>
          let '(projectName, _) :=
            getProjectNameFromID (groups.TenantID sg) (Projects (chk st1)) in
          (Some (true, None), appendAttachment (policyAttachment projectName sg) st1)
      end
  end.

(** The loop of [Run] over the groups for one policy: the flag
    [existsSGMatchedPolicy] and the error of an early return. *)
Fixpoint policyGroups (query : list string) (securityGroups : list groups.SecGroup)
         (allowed_sg : list string) (existsSGMatchedPolicy : bool) (st : state)
  : option (bool * option error) * state :=
  match securityGroups with
  | [] => (Some (existsSGMatchedPolicy, None), st)
  | sg :: rest =>
      if contain allowed_sg (groups.ID sg)
      then policyGroups query rest allowed_sg existsSGMatchedPolicy st
      else
        match matchPolicy query sg st with
        | (None, st') => (None, st')
        | (Some (_, Some err), st') => (Some (existsSGMatchedPolicy, Some err), st')
        | (Some (matched, None), st') =>
            policyGroups query rest allowed_sg
                         (if matched then true else existsSGMatchedPolicy) st'
        end
  end.

Definition postMessage (channel text : string) (attachments : list slack.Attachment)
           (params : slack.PostMessageParameters) (st : state) : option error * state :=
  (slackPostMessage (trace st) channel text attachments params,
   record (PostMessage channel text attachments params) st).

Fixpoint postItems (channel : string) (items : list slack.Attachment)
         (params : slack.PostMessageParameters) (st : state) : option error * state :=
  match items with
  | [] => (None, st)
  | item :: rest =>
      match postMessage channel EmptyString [item] params st with
      | (Some err, st') => (Some (Wrapf err "Failed to post attachments"), st')
      | (None, st') => postItems channel rest params st'
      end
  end.

(** [checker.postWarning(attachments, prefix, suffix)]. *)
Definition postWarning (attachments : list slack.Attachment) (prefix suffix : string)
           (st : state) : option error * state :=
  let cfg := Cfg (chk st) in
  let params := {| slack.Username := Cfg_Username cfg;
                   slack.IconEmoji := Cfg_IconEmoji cfg |} in
  match postMessage (Cfg_SlackChannel cfg) prefix [] params st with
  | (Some err, st1) => (Some (Wrapf err "Failed to post prefix message"), st1)
  | (None, st1) =>
      match postItems (Cfg_SlackChannel cfg) attachments params st1 with
      | (Some err, st2) => (Some err, st2)
      | (None, st2) =>
          match postMessage (Cfg_SlackChannel cfg) suffix [] params st2 with
          | (Some err, st3) => (Some (Wrapf err "Failed to post suffix message"), st3)
          | (None, st3) => (None, st3)
          end
      end
  end.

Definition policyPaths (policy : Policy) : list string :=
  (if String.eqb (Policy_Policy policy) EmptyString then [] else [Policy_Policy policy])
  ++ (if String.eqb (Policy_Data policy) EmptyString then [] else [Policy_Data policy]).

(** The loop of [Run] over the configured policies; [Some None] is the
    [return nil] after the loop, [Some (Some err)] an early return and
    [None] a panic. *)
Fixpoint policyPass (policies : list Policy) (securityGroups : list groups.SecGroup)
         (allowed_sg : list string) (st : state) : option (option error) * state :=
  match policies with
  | [] => (Some None, st)
  | policy :: rest =>
      let paths := policyPaths policy in
      match PrepareForEval paths with
      | Some err => (Some (Some err), st)
      | None =>
          match policyGroups paths securityGroups allowed_sg false st with
          | (None, st') => (None, st')
          | (Some (_, Some err), st') => (Some (Some err), st')
          | (Some (existsSGMatchedPolicy, None), st') =>
              if existsSGMatchedPolicy && negb (Cfg_DryRun (Cfg (chk st'))) then
                match postWarning (Attachments (chk st'))
                                  (Policy_PrefixMessage policy)
                                  (Policy_SuffixMessage policy) st' with
                | (Some err, st'') =>
                    (Some (Some (Wrapf err "Failed to post warning")), st'')
                | (None, st'') => policyPass rest securityGroups allowed_sg st''
                end
              else policyPass rest securityGroups allowed_sg st'
          end
      end
  end.

(** *** Inventory and allow-list *)

Variable redisLLen : error + Z.
Variable redisLRange : Z -> error + list string.
Variable authenticate : option error.
Variable fetchProjects : error + list projects.Project.
Variable fetchPorts : error + list ports.Port.
Variable fetchFloatingIPS : error + list floatingips.FloatingIP.
Variable fetchSecurityGroups : error + list groups.SecGroup.

(** The loop of [Run] that fills in the tenant id of every configured rule
    from the project of the same name (the last such project wins). *)
Fixpoint resolveTenantID (rule : Rule) (ps : list projects.Project) : Rule :=
  match ps with
  | [] => rule
  | p :: ps' =>
      resolveTenantID
        (if String.eqb (Rule_Tenant rule) (projects.Name p)
         then {| Rule_Tenant := Rule_Tenant rule; Rule_TenantID := projects.ID p;
                 Rule_SG := Rule_SG rule; Rule_Port := Rule_Port rule |}
         else rule) ps'
  end.

Definition set_Rules (cfg : Config) (rs : list Rule) : Config :=
  {| Cfg_Rules := rs; Cfg_Policies := Cfg_Policies cfg; Cfg_DryRun := Cfg_DryRun cfg;
     Cfg_PrefixMessage := Cfg_PrefixMessage cfg;
     Cfg_SuffixMessage := Cfg_SuffixMessage cfg;
     Cfg_Username := Cfg_Username cfg; Cfg_IconEmoji := Cfg_IconEmoji cfg;
     Cfg_SlackChannel := Cfg_SlackChannel cfg |}.

(** [Run], from the point where the inventory is there: both evaluation
    passes and their notifications. *)
Definition evaluate (allowed_sg : list string) (ps : list ports.Port)
           (fips : list floatingips.FloatingIP)
           (securityGroups : list groups.SecGroup) (st : state)
  : option (option error) * state :=
  match openAccessPass (chk st) securityGroups ps fips allowed_sg false with
  | ((_, Some err), checker') =>
      (Some (Some err), {| chk := checker'; trace := trace st |})
  | ((existNoguardSG, None), checker') =>
      let st1 := {| chk := checker'; trace := trace st |} in
      let cfg := Cfg checker' in
      let posted :=
        if existNoguardSG && negb (Cfg_DryRun cfg)
        then postWarning (Attachments checker') (Cfg_PrefixMessage cfg)
                         (Cfg_SuffixMessage cfg) st1
        else (None, st1) in
      match posted with
      | (Some err, st2) => (Some (Some (Wrapf err "Failed to post warning")), st2)
      | (None, st2) =>
          let st3 := {| chk := set_Attachments (chk st2) []; trace := trace st2 |} in
          policyPass (Cfg_Policies (Cfg (chk st3))) securityGroups allowed_sg st3
      end
  end.

(** [checker.Run()]. *)
Definition Run (checker : OpenStackSecurityGroupChecker)
  : option (option error) * state :=
  let st := {| chk := checker; trace := [] |} in
  match redisLLen with
  | inl err => (Some (Some err), st)
  | inr len =>
      match redisLRange len with
      | inl err => (Some (Some err), st)
      | inr allowed_sg =>
          match authenticate with
          | Some err =>
              (Some (Some (Wrapf err "Failed to authenticate OpenStack API")), st)
          | None =>
              match fetchProjects with
              | inl err =>
                  (Some (Some (Wrapf err "Failed to fetch projects")),
                   {| chk := {| Cfg := Cfg checker; Attachments := Attachments checker;
                                Projects := [] |};
                      trace := [] |})
              | inr projs =>
                  let cfg := set_Rules (Cfg checker)
                               (map (fun rule => resolveTenantID rule projs)
                                    (Cfg_Rules (Cfg checker))) in
                  let checker1 := {| Cfg := cfg; Attachments := Attachments checker;
                                     Projects := projs |} in
                  let st1 := {| chk := checker1; trace := [] |} in
                  match fetchPorts with
                  | inl err => (Some (Some (Wrapf err "Failed to fetch ports")), st1)
                  | inr ps =>
                      match fetchFloatingIPS with
                      | inl err => (Some (Some (Wrapf err "Failed to fetch fips")), st1)
                      | inr fips =>
                          match fetchSecurityGroups with
                          | inl err =>
                              (Some (Some (Wrapf err "Failed to security groups")), st1)
                          | inr securityGroups =>
                              evaluate allowed_sg ps fips securityGroups st1
                          end
                      end
                  end
              end
          end
      end
  end.

End Engine.

(** * Definitions used to state the properties *)

(** ** The address ranges of the classifier, as sets of addresses

    An IPv4 address [a.b.c.d] is held either in four bytes or in the sixteen
    bytes of its IPv4-in-IPv6 form. *)

Definition isByte (b : Z) : Prop := 0 <= b < 256.

Definition isIPv4 (ip : net.IP) (a b c d : Z) : Prop :=
  ip = [a; b; c; d] \/ ip = net.IPv4 a b c d.

Inductive privateAddress : net.IP -> Prop :=
| in_10_8 ip b c d :
    isIPv4 ip 10 b c d -> privateAddress ip
| in_172_16_12 ip b c d :
    isIPv4 ip 172 b c d -> 16 <= b <= 31 -> privateAddress ip
| in_192_168_16 ip c d :
    isIPv4 ip 192 168 c d -> privateAddress ip
| loopback4 ip b c d :
    isIPv4 ip 127 b c d -> privateAddress ip
| loopback6 :
    privateAddress net.IPv6loopback
| linkLocalUnicast4 ip c d :
    isIPv4 ip 169 254 c d -> privateAddress ip
| linkLocalUnicast6 ip :
    List.length ip = 16%nat -> net.byteAt ip 0 = 254 ->
    128 <= net.byteAt ip 1 <= 191 -> privateAddress ip
| linkLocalMulticast4 ip d :
    isIPv4 ip 224 0 0 d -> privateAddress ip
| linkLocalMulticast6 ip :
    List.length ip = 16%nat -> net.byteAt ip 0 = 255 ->
    isByte (net.byteAt ip 1) -> net.byteAt ip 1 mod 16 = 2 -> privateAddress ip.

(** ** Exposure *)

(** A fixed address of a port that the classifier takes for a public one. *)
Definition classifiesPublic (ip : ports.IP) : Prop :=
  isPrivateIP (net.ParseIP (ports.IPAddress ip)) = (false, None).

(** A port with a bound floating IP or a fixed address classified public. *)
Definition portReachable (fips : list floatingips.FloatingIP) (port : ports.Port) : Prop :=
  (exists fip, In fip fips /\ floatingips.PortID fip = ports.ID port)
  \/ (exists ip, In ip (ports.FixedIPs port) /\ classifiesPublic ip).

(** ** Tenant labels and open-access findings *)

Definition findProject (id : string) (ps : list projects.Project) : option projects.Project :=
  find (fun p => String.eqb (projects.ID p) id) ps.

(** The label of a tenant as the specification has it: the name of the first
    project with that id, the id itself when there is none. *)
Definition tenantLabel (id : string) (ps : list projects.Project) : string :=
  match findProject id ps with
  | Some p => projects.Name p
  | None => id
  end.

(** The rules that the open-access evaluator looks at. *)
Definition violationCandidate (rule : rules.SecGroupRule) : Prop :=
  rules.Protocol rule = "tcp" /\ rules.Direction rule = "ingress"
  /\ rules.RemoteIPPrefix rule = "0.0.0.0/0".

(** The findings that one rule of a group gives rise to. *)
Definition ruleFindings (allowRules : list Rule) (projs : list projects.Project)
           (allowed_sg : list string) (sg : groups.SecGroup) (rule : rules.SecGroupRule)
  : list slack.Attachment :=
  if isViolation rule then
    if matchAllowdRule allowRules sg rule || contain allowed_sg (groups.ID sg) then []
    else [openAccessAttachment (tenantLabel (groups.TenantID sg) projs) sg rule]
  else [].

Definition groupFindings (allowRules : list Rule) (projs : list projects.Project)
           (allowed_sg : list string) (sg : groups.SecGroup) : list slack.Attachment :=
  flat_map (ruleFindings allowRules projs allowed_sg sg) (groups.Rules sg).

Definition isExposed (sg : groups.SecGroup) (ps : list ports.Port)
           (fips : list floatingips.FloatingIP) : bool :=
  match scanPorts ps sg fips with
  | BreakIGNOREPORT => true
  | _ => false
  end.

(** The findings of one pass over the inventory, in the order of the groups
    and of their rules. *)
Definition passFindings (allowRules : list Rule) (projs : list projects.Project)
           (allowed_sg : list string) (ps : list ports.Port)
           (fips : list floatingips.FloatingIP) (sgs : list groups.SecGroup)
  : list slack.Attachment :=
  flat_map (fun sg => if isExposed sg ps fips
                      then groupFindings allowRules projs allowed_sg sg else []) sgs.

Definition nonEmpty {A : Type} (l : list A) : bool :=
  match l with
  | [] => false
  | _ :: _ => true
  end.

(** ** Port sets of the allow rules *)

Definition digits (s : string) : Prop := strings.all strings.is_digit s = true.

Definition dash : string := "-".





(** An entry for the tenant and the name of a group. *)
Definition entryFor (allowdRule : Rule) (sg : groups.SecGroup) : Prop :=
  Rule_TenantID allowdRule = groups.TenantID sg /\ Rule_SG allowdRule = groups.Name sg.

(** ** The policy evaluator: what a run is expected to do *)

Definition isPrefix {A : Type} (l1 l2 : list A) : Prop := exists l3, l2 = l1 ++ l3.

Section Expected.

Variable timeLocalString : Z -> string.
Variable Eval : list string -> groups.SecGroup -> error + list value.
Variable cfg : Config.
Variable projs : list projects.Project.
Variable allowed_sg : list string.
Variable securityGroups : list groups.SecGroup.

(** The groups that are not in the dynamic allow-list, in inventory order. *)
Definition nonExempt : list groups.SecGroup :=
  filter (fun sg => negb (contain allowed_sg (groups.ID sg))) securityGroups.

(** The verdict of the predicate of a policy on a group is [true]. *)
Definition policyMatch (query : list string) (sg : groups.SecGroup) : bool :=
  match Eval query sg with
  | inr (VBool true :: _) => true
  | _ => false
  end.

Definition findingsAmong (query : list string) (sgs : list groups.SecGroup)
  : list slack.Attachment :=
  flat_map (fun sg =>
              if policyMatch query sg
              then [policyAttachment timeLocalString
                      (fst (getProjectNameFromID (groups.TenantID sg) projs)) sg]
              else []) sgs.

(** The policy-match findings of one policy. *)
Definition policyFindings (policy : Policy) : list slack.Attachment :=
  findingsAmong (policyPaths policy) nonExempt.

(** The queries put to the engine for one policy. *)
Definition policyQueries (policy : Policy) : list event :=
  map (QueryEval (policyPaths policy)) nonExempt.

(** The messages of one notification batch: the prefix, one message per
    finding, the suffix. *)
Definition batch (attachments : list slack.Attachment) (prefix suffix : string)
  : list event :=
  let params := {| slack.Username := Cfg_Username cfg;
                   slack.IconEmoji := Cfg_IconEmoji cfg |} in
  [PostMessage (Cfg_SlackChannel cfg) prefix [] params]
  ++ map (fun item => PostMessage (Cfg_SlackChannel cfg) EmptyString [item] params)
         attachments
  ++ [PostMessage (Cfg_SlackChannel cfg) suffix [] params].

(** The batch of the open-access pass; [acc] is the accumulator before the
    pass and [F] the findings of the pass. *)
Definition openAccessBatch (acc F : list slack.Attachment) : list event :=
  if nonEmpty F && negb (Cfg_DryRun cfg)
  then batch (acc ++ F) (Cfg_PrefixMessage cfg) (Cfg_SuffixMessage cfg)
  else [].

(** The batch of a policy, sent when the policy has findings and the run is
    not a dry run; [acc] is the accumulator before the policy. *)
Definition policyBatch (acc : list slack.Attachment) (policy : Policy) : list event :=
  if nonEmpty (policyFindings policy) && negb (Cfg_DryRun cfg)
  then batch (acc ++ policyFindings policy)
             (Policy_PrefixMessage policy) (Policy_SuffixMessage policy)
  else [].

(** The trace of the policy pass of a run in which no call fails. *)
Fixpoint expectedPolicyTrace (policies : list Policy) (acc : list slack.Attachment)
  : list event :=
  match policies with
  | [] => []
  | policy :: rest =>
      policyQueries policy ++ policyBatch acc policy
      ++ expectedPolicyTrace rest (acc ++ policyFindings policy)
  end.

Definition isQuery (ev : event) : bool :=
  match ev with
  | QueryEval _ _ => true
  | PostMessage _ _ _ _ => false
  end.

Definition queriesOf (tr : list event) : list event := filter isQuery tr.

End Expected.

(** A world in which every call succeeds and every policy matches every
    group, and a small inventory, for the examples. *)
Module Example.

Definition timeLocalString (t : Z) : string := strconv.Itoa t.
Definition jsonFacts (sg : groups.SecGroup) : option error := None.
Definition PrepareForEval (paths : list string) : option error := None.
Definition Eval (paths : list string) (sg : groups.SecGroup) : error + list value :=
  inr [VBool true].
(** An engine whose queries have no result. *)
Definition EvalNoResult (paths : list string) (sg : groups.SecGroup)
  : error + list value := inr [].

Definition slackPostMessage (history : list event) (channel text : string)
           (attachments : list slack.Attachment)
           (params : slack.PostMessageParameters) : option error := None.

Definition ssh : rules.SecGroupRule :=
  {| rules.Direction := "ingress"; rules.Protocol := "tcp";
     rules.RemoteIPPrefix := "0.0.0.0/0";
     rules.PortRangeMin := 22; rules.PortRangeMax := 22 |}.

Definition http (min max : Z) : rules.SecGroupRule :=
  {| rules.Direction := "ingress"; rules.Protocol := "tcp";
     rules.RemoteIPPrefix := "0.0.0.0/0";
     rules.PortRangeMin := min; rules.PortRangeMax := max |}.

Definition sg1 : groups.SecGroup :=
  {| groups.ID := "sg-1"; groups.Name := "web"; groups.TenantID := "t1";
     groups.Rules := [ssh]; groups.CreatedAt := 0 |}.

(** A group of a tenant that is not among the projects. *)
Definition sg9 : groups.SecGroup :=
  {| groups.ID := "sg-9"; groups.Name := "db"; groups.TenantID := "t9";
     groups.Rules := [ssh]; groups.CreatedAt := 0 |}.

Definition port1 : ports.Port :=
  {| ports.ID := "p1";
     ports.FixedIPs := [ {| ports.SubnetID := "s1"; ports.IPAddress := "203.0.113.5" |} ];
     ports.SecurityGroups := ["sg-1"; "sg-9"] |}.

(** A port whose fixed address is no IP address. *)
Definition portBogus : ports.Port :=
  {| ports.ID := "p2";
     ports.FixedIPs := [ {| ports.SubnetID := "s1"; ports.IPAddress := "not-an-ip" |} ];
     ports.SecurityGroups := ["sg-1"] |}.

Definition alpha : projects.Project := {| projects.ID := "t1"; projects.Name := "Alpha" |}.

Definition allow (Port : list string) : Rule :=
  {| Rule_Tenant := "Alpha"; Rule_TenantID := "t1"; Rule_SG := "web"; Rule_Port := Port |}.

Definition policyA : Policy :=
  {| Policy_Policy := "a.rego"; Policy_Data := ""; Policy_PrefixMessage := "A:";
     Policy_SuffixMessage := "end A" |}.

Definition policyB : Policy :=
  {| Policy_Policy := "b.rego"; Policy_Data := "b.json"; Policy_PrefixMessage := "B:";
     Policy_SuffixMessage := "end B" |}.

Definition config (allowRules : list Rule) (policies : list Policy) : Config :=
  {| Cfg_Rules := allowRules; Cfg_Policies := policies; Cfg_DryRun := false;
     Cfg_PrefixMessage := "open:"; Cfg_SuffixMessage := "end open";
     Cfg_Username := "bot"; Cfg_IconEmoji := ":warning:";
     Cfg_SlackChannel := "#alerts" |}.

Definition checker (allowRules : list Rule) (policies : list Policy)
  : OpenStackSecurityGroupChecker :=
  {| Cfg := config allowRules policies; Attachments := []; Projects := [alpha] |}.

Definition start (policies : list Policy) : state :=
  {| chk := checker [] policies; trace := [] |}.

(** The policy pass and the whole evaluation on that inventory, with [sg9]
    in the dynamic allow-list. *)
Definition policyRun : option (option error) * state :=
  policyPass timeLocalString jsonFacts PrepareForEval Eval slackPostMessage
             [policyA; policyB] [sg1; sg9] ["sg-9"] (start [policyA; policyB]).

(** The same checker in a dry run, and a whole [Run] on that inventory. *)
Definition dryChecker : OpenStackSecurityGroupChecker :=
  {| Cfg := {| Cfg_Rules := [allow ["80"]]; Cfg_Policies := [policyA; policyB];
               Cfg_DryRun := true;
               Cfg_PrefixMessage := "open:"; Cfg_SuffixMessage := "end open";
               Cfg_Username := "bot"; Cfg_IconEmoji := ":warning:";
               Cfg_SlackChannel := "#alerts" |};
     Attachments := []; Projects := [] |}.

Definition dryRun : option (option error) * state :=
  Run timeLocalString jsonFacts PrepareForEval Eval slackPostMessage
      (inr 1) (fun _ => inr ["sg-9"]) None (inr [alpha]) (inr [port1; portBogus])
      (inr []) (inr [sg1; sg9]) dryChecker.

Definition run : option (option error) * state :=
  evaluate timeLocalString jsonFacts PrepareForEval Eval slackPostMessage
           ["sg-9"] [port1] [] [sg1; sg9] (start [policyA; policyB]).

End Example.

(** ** Further notions: addresses as text, entries with stray text, lookups *)

(** The verdict of the classifier on the IPv4 address [a.b.c.d], as a formula
    on its octets. *)
Definition privateV4 (a b c d : Z) : bool :=
  (a =? 127) || ((a =? 169) && (b =? 254)) || ((a =? 224) && (b =? 0) && (c =? 0))
  || ((a =? 10) || ((a =? 172) && ((16 <=? b) && (b <=? 31)))
      || ((a =? 192) && (b =? 168))).

(** The dotted-decimal text of an IPv4 address. *)
Definition dotted (a b c d : Z) : string :=
  (strconv.Itoa a ++ "." ++ strconv.Itoa b ++ "." ++ strconv.Itoa c ++ "."
     ++ strconv.Itoa d)%string.

(** What [parseIPv4] asks of the text of one octet, as a check that can be
    run on every byte. *)
Definition octetTextOk (a : Z) : bool :=
  let s := strconv.Itoa a in
  let '(n, c, ok) := net.dtoi s in
  strings.all strings.is_digit s
  && negb (Nat.eqb (String.length s) 0)
  && (n =? a) && Nat.eqb c (String.length s) && ok
  && negb (Nat.ltb 1 (String.length s) && net.headIs "0" s).

Definition startsWithDot (s : string) : Prop :=
  s = EmptyString \/ exists r, s = String "." r.

Definition noDash (s : string) : Prop :=
  strings.all (fun c => negb (strings.is_dash c)) s = true.

(** The longest run of digits at the end of a text. *)
Fixpoint trailingDigits (s : string) : string :=
  match s with
  | EmptyString => EmptyString
  | String c s' =>
      if strings.all strings.is_digit s then s else trailingDigits s'
  end.

(** The range expression of two bounds. *)
Definition rangeText (lo hi : Z) : string :=
  (strconv.Itoa lo ++ "-" ++ strconv.Itoa hi)%string.

(** [entryFor], as a test. *)
Definition entryForb (sg : groups.SecGroup) (allowdRule : Rule) : bool :=
  String.eqb (Rule_TenantID allowdRule) (groups.TenantID sg)
  && String.eqb (Rule_SG allowdRule) (groups.Name sg).

(** The last project of a list that has the given name. *)
Definition lastProjectNamed (name : string) (ps : list projects.Project)
  : option projects.Project :=
  find (fun p => String.eqb name (projects.Name p)) (rev ps).

(** * Properties *)

(** ** The IP classifier *)

Lemma parseBlocks_privateCIDRs :
  parseBlocks privateCIDRs [] =
  inr [ {| net.IPNet_IP := [10; 0; 0; 0]; net.Mask := [255; 0; 0; 0] |};
        {| net.IPNet_IP := [172; 16; 0; 0]; net.Mask := [255; 240; 0; 0] |};
        {| net.IPNet_IP := [192; 168; 0; 0]; net.Mask := [255; 255; 0; 0] |} ].
Proof. vm_compute. reflexivity. Qed.

Lemma isPrivateIP_no_error (ip : net.IP) : snd (isPrivateIP ip) = None.
Proof.
  unfold isPrivateIP.
  rewrite parseBlocks_privateCIDRs.
  destruct (net.IsLoopback ip || net.IsLinkLocalUnicast ip || net.IsLinkLocalMulticast ip);
    [reflexivity|].
  destruct (existsb _ _); reflexivity.
Qed.

Lemma isPrivateIP_total (ip : net.IP) : exists b, isPrivateIP ip = (b, None).
Proof.
  pose proof (isPrivateIP_no_error ip) as H.
  destruct (isPrivateIP ip) as [b e]; simpl in H; subst e.
  exists b; reflexivity.
Qed.

Lemma range_check (P : Z -> bool) (lo n : nat) :
  forallb P (map Z.of_nat (seq lo n)) = true ->
  forall b, Z.of_nat lo <= b < Z.of_nat (lo + n) -> P b = true.
Proof.
  intros H b Hb.
  rewrite forallb_forall in H.
  apply H. apply in_map_iff.
  exists (Z.to_nat b). split; [lia|].
  apply in_seq. lia.
Qed.

Lemma land_240_second_octet (b : Z) : 16 <= b <= 31 -> Z.land b 240 = 16.
Proof.
  intros Hb.
  apply Z.eqb_eq.
  apply (range_check (fun b => Z.land b 240 =? 16) 16 16); [vm_compute; reflexivity|lia].
Qed.

Lemma land_192_link_local (b : Z) : 128 <= b <= 191 -> Z.land b 192 = 128.
Proof.
  intros Hb.
  apply Z.eqb_eq.
  apply (range_check (fun b => Z.land b 192 =? 128) 128 64); [vm_compute; reflexivity|lia].
Qed.

Lemma land_15_mod (b : Z) : 0 <= b -> Z.land b 15 = b mod 16.
Proof.
  intros Hb. change 15 with (Z.ones 4). rewrite Z.land_ones by lia. reflexivity.
Qed.

Lemma To4_IPv6_nonzero_head (ip : net.IP) :
  List.length ip = 16%nat -> net.byteAt ip 0 <> 0 -> net.To4 ip = [].
Proof.
  intros Hlen Hhd. unfold net.To4. rewrite Hlen.
  destruct ip as [|x ip']; [discriminate|].
  unfold net.byteAt in Hhd; simpl in Hhd.
  assert (Hz : net.isZeros (firstn 10 (x :: ip')) = false).
  { change (firstn 10 (x :: ip')) with (x :: firstn 9 ip').
    unfold net.isZeros.
    change (forallb (Z.eqb 0) (x :: firstn 9 ip'))
      with ((0 =? x) && forallb (Z.eqb 0) (firstn 9 ip')).
    apply Bool.andb_false_intro1. apply Z.eqb_neq. congruence. }
  rewrite Hz. reflexivity.
Qed.

Lemma isPrivateIP_private (ip : net.IP) :
  privateAddress ip -> isPrivateIP ip = (true, None).
Proof.
  intros H.
  assert (Hb : fst (isPrivateIP ip) = true -> isPrivateIP ip = (true, None)).
  { pose proof (isPrivateIP_no_error ip) as He.
    destruct (isPrivateIP ip) as [b e]; simpl in *; intros; subst; reflexivity. }
  apply Hb; clear Hb.
  unfold isPrivateIP. rewrite parseBlocks_privateCIDRs.
  destruct H as [ip b c d [-> | ->] | ip b c d [-> | ->] Hr | ip c d [-> | ->]
                 | ip b c d [-> | ->] | | ip c d [-> | ->] | ip Hl H0 H1
                 | ip d [-> | ->] | ip Hl H0 Hby H1].
  - destruct (_ || _ || _); [reflexivity|].
    cbn. rewrite !Z.land_0_r. reflexivity.
  - destruct (_ || _ || _); [reflexivity|].
    cbn. rewrite !Z.land_0_r. reflexivity.
  - destruct (_ || _ || _); [reflexivity|].
    cbn. rewrite !Z.land_0_r, (land_240_second_octet b Hr). reflexivity.
  - destruct (_ || _ || _); [reflexivity|].
    cbn. rewrite !Z.land_0_r, (land_240_second_octet b Hr). reflexivity.
  - destruct (_ || _ || _); [reflexivity|].
    cbn. rewrite !Z.land_0_r. reflexivity.
  - destruct (_ || _ || _); [reflexivity|].
    cbn. rewrite !Z.land_0_r. reflexivity.
  - reflexivity.
  - reflexivity.
  - reflexivity.
  - assert (F : net.IsLinkLocalUnicast [169; 254; c; d] = true) by reflexivity.
    rewrite F, Bool.orb_true_r. reflexivity.
  - assert (F : net.IsLinkLocalUnicast (net.IPv4 169 254 c d) = true) by reflexivity.
    rewrite F, Bool.orb_true_r. reflexivity.
  - assert (F : net.IsLinkLocalUnicast ip = true).
    { unfold net.IsLinkLocalUnicast.
      rewrite (To4_IPv6_nonzero_head ip Hl) by lia.
      rewrite Hl, H0, (land_192_link_local _ H1). reflexivity. }
    rewrite F, Bool.orb_true_r. reflexivity.
  - assert (F : net.IsLinkLocalMulticast [224; 0; 0; d] = true) by reflexivity.
    rewrite F, Bool.orb_true_r. reflexivity.
  - assert (F : net.IsLinkLocalMulticast (net.IPv4 224 0 0 d) = true) by reflexivity.
    rewrite F, Bool.orb_true_r. reflexivity.
  - assert (F : net.IsLinkLocalMulticast ip = true).
    { unfold net.IsLinkLocalMulticast.
      rewrite (To4_IPv6_nonzero_head ip Hl) by lia.
      destruct Hby as [Hby _].
      rewrite Hl, H0, (land_15_mod _ Hby), H1. reflexivity. }
    rewrite F, Bool.orb_true_r. reflexivity.
Qed.

(** ** The exposure filter *)

Lemma fipBound_spec fips port :
  fipBound fips port = true <->
  exists fip, In fip fips /\ floatingips.PortID fip = ports.ID port.
Proof.
  unfold fipBound. rewrite existsb_exists.
  split; intros [fip [Hin H]]; exists fip; split; trivial;
    apply String.eqb_eq; exact H.
Qed.

Lemma scanFixedIPs_cases ips :
  (scanFixedIPs ips = BreakIGNOREPORT /\ exists ip, In ip ips /\ classifiesPublic ip)
  \/ (scanFixedIPs ips = ScanNext /\ forall ip, In ip ips -> ~ classifiesPublic ip).
Proof.
  induction ips as [|ip rest IH]; simpl.
  - right. split; [reflexivity|]. intros ip [].
  - unfold classifiesPublic in *.
    destruct (isPrivateIP_total (net.ParseIP (ports.IPAddress ip))) as [b Hb].
    rewrite Hb. destruct b; simpl.
    + destruct IH as [[-> [ip' [Hin Hp]]] | [-> Hall]].
      * left. split; [reflexivity|]. exists ip'. auto.
      * right. split; [reflexivity|].
        intros ip' [<- | Hin]; [rewrite Hb; discriminate | auto].
    + left. split; [reflexivity|]. exists ip. auto.
Qed.

Lemma scanSecurityGroups_cases sgids sg port fips :
  (scanSecurityGroups sgids sg port fips = BreakIGNOREPORT
   /\ In (groups.ID sg) sgids /\ portReachable fips port)
  \/ (scanSecurityGroups sgids sg port fips = ScanNext
      /\ ~ (In (groups.ID sg) sgids /\ portReachable fips port)).
Proof.
  induction sgids as [|sgid rest IH]; simpl.
  - right. split; [reflexivity|]. intros [[] _].
  - destruct (String.eqb_spec sgid (groups.ID sg)) as [-> | Hne].
    + destruct (fipBound fips port) eqn:Hf.
      * left. split; [reflexivity|]. split; [auto|].
        left. apply fipBound_spec. exact Hf.
      * destruct (scanFixedIPs_cases (ports.FixedIPs port)) as [[-> Hex] | [-> Hall]].
        -- left. split; [reflexivity|]. split; [auto|]. right. exact Hex.
        -- right. destruct IH as [[_ [_ Hr]] | [-> Hn]].
           ++ exfalso. destruct Hr as [Hr | [ip [Hin Hp]]].
              ** apply fipBound_spec in Hr. congruence.
              ** exact (Hall ip Hin Hp).
           ++ split; [reflexivity|]. intros [_ [Hr | [ip [Hin Hp]]]].
              ** apply fipBound_spec in Hr. congruence.
              ** exact (Hall ip Hin Hp).
    + destruct IH as [[-> [Hin Hr]] | [-> Hn]].
      * left. auto.
      * right. split; [reflexivity|]. intros [[Heq | Hin] Hr]; [congruence | auto].
Qed.

Lemma scanPorts_cases ps sg fips :
  (scanPorts ps sg fips = BreakIGNOREPORT
   /\ exists port, In port ps /\ In (groups.ID sg) (ports.SecurityGroups port)
                   /\ portReachable fips port)
  \/ (scanPorts ps sg fips = ScanNext
      /\ forall port, In port ps ->
           ~ (In (groups.ID sg) (ports.SecurityGroups port) /\ portReachable fips port)).
Proof.
  induction ps as [|port rest IH]; simpl.
  - right. split; [reflexivity|]. intros port [].
  - destruct (scanSecurityGroups_cases (ports.SecurityGroups port) sg port fips)
      as [[-> [Hin Hr]] | [-> Hn]].
    + left. split; [reflexivity|]. exists port. auto.
    + destruct IH as [[-> [p [Hin [Hsg Hr]]]] | [-> Hall]].
      * left. split; [reflexivity|]. exists p. auto.
      * right. split; [reflexivity|].
        intros p [<- | Hin]; auto.
Qed.

Lemma scanPorts_exposed_iff ps sg fips :
  scanPorts ps sg fips = BreakIGNOREPORT <->
  exists port, In port ps /\ In (groups.ID sg) (ports.SecurityGroups port)
               /\ portReachable fips port.
Proof.
  destruct (scanPorts_cases ps sg fips) as [[-> Hex] | [-> Hall]].
  - split; auto.
  - split; [discriminate|].
    intros [port [Hin [Hsg Hr]]]. exfalso. exact (Hall port Hin (conj Hsg Hr)).
Qed.

Lemma scanPorts_not_exposed ps sg fips :
  scanPorts ps sg fips <> BreakIGNOREPORT -> scanPorts ps sg fips = ScanNext.
Proof.
  destruct (scanPorts_cases ps sg fips) as [[-> _] | [-> _]]; congruence.
Qed.

Lemma isFullOpen_not_exposed checker sg ps fips allowed_sg :
  scanPorts ps sg fips = ScanNext ->
  isFullOpen checker sg ps fips allowed_sg = ((false, None), checker).
Proof. intros H. unfold isFullOpen. rewrite H. reflexivity. Qed.

Lemma isFullOpen_no_error checker sg ps fips allowed_sg :
  snd (fst (isFullOpen checker sg ps fips allowed_sg)) = None.
Proof.
  unfold isFullOpen.
  destruct (scanPorts_cases ps sg fips) as [[-> _] | [-> _]]; [|reflexivity].
  destruct (scanRules _ _ _ _ _); reflexivity.
Qed.

(** ** Tenant resolution *)

Lemma getProjectNameFromID_find id ps :
  getProjectNameFromID id ps =
  match findProject id ps with
  | Some p => (projects.Name p, None)
  | None => (EmptyString, Some (ErrorString ("Not found project: " ++ id)%string))
  end.
Proof.
  unfold findProject.
  induction ps as [|p ps' IH]; simpl; [reflexivity|].
  destruct (String.eqb (projects.ID p) id); [reflexivity | exact IH].
Qed.

Lemma findProject_Some id ps p :
  findProject id ps = Some p -> In p ps /\ projects.ID p = id.
Proof.
  intros H. apply find_some in H. destruct H as [Hin Heq].
  split; [exact Hin | apply String.eqb_eq; exact Heq].
Qed.

Lemma findProject_None id ps :
  findProject id ps = None <-> (forall p, In p ps -> projects.ID p <> id).
Proof.
  split.
  - intros H p Hin Heq.
    pose proof (find_none _ _ H p Hin) as Hf. simpl in Hf.
    apply String.eqb_neq in Hf. contradiction.
  - intros H. unfold findProject.
    induction ps as [|q ps' IH]; simpl; [reflexivity|].
    destruct (String.eqb_spec (projects.ID q) id) as [Heq | Hne].
    + exfalso. apply (H q); [left; reflexivity | exact Heq].
    + apply IH. intros p Hin. apply H. right. exact Hin.
Qed.

(** ** The open-access evaluator *)

Lemma isViolation_spec rule : isViolation rule = true <-> violationCandidate rule.
Proof.
  unfold isViolation, violationCandidate.
  rewrite !Bool.andb_true_iff, !String.eqb_eq. tauto.
Qed.

Lemma nonEmpty_app {A : Type} (l1 l2 : list A) :
  nonEmpty (l1 ++ l2) = nonEmpty l1 || nonEmpty l2.
Proof. destruct l1; reflexivity. Qed.

Lemma scanRules_spec rs : forall checker sg allowed_sg b,
  let r := scanRules checker sg rs allowed_sg b in
  let F := flat_map (ruleFindings (Cfg_Rules (Cfg checker)) (Projects checker)
                                  allowed_sg sg) rs in
  fst r = b || nonEmpty F
  /\ Cfg (snd r) = Cfg checker
  /\ Projects (snd r) = Projects checker
  /\ Attachments (snd r) = Attachments checker ++ F.
Proof.
  induction rs as [|rule rest IH]; intros checker sg allowed_sg b;
    cbn [scanRules flat_map].
  - cbn. rewrite Bool.orb_false_r, app_nil_r. auto.
  - cbv zeta.
    remember (ruleFindings (Cfg_Rules (Cfg checker)) (Projects checker) allowed_sg sg rule)
      as fr eqn:Hfr.
    unfold ruleFindings in Hfr.
    rewrite getProjectNameFromID_find.
    destruct (isViolation rule); cbn [negb] in *;
      [|subst fr; apply IH].
    destruct (matchAllowdRule (Cfg_Rules (Cfg checker)) sg rule); cbn [negb orb] in *;
      [subst fr; apply IH|].
    destruct (contain allowed_sg (groups.ID sg));
      [subst fr; apply IH|].
    match goal with
    | |- context [scanRules ?c sg rest allowed_sg true] =>
        destruct (IH c sg allowed_sg true) as [H1 [H2 [H3 H4]]]
    end.
    cbn [set_Attachments Cfg Projects Attachments] in H1, H2, H3, H4.
    rewrite H1, H2, H3, H4.
    assert (Hl : (match match findProject (groups.TenantID sg) (Projects checker) with
                        | Some p => (projects.Name p, @None error)
                        | None => (EmptyString,
                                   Some (ErrorString
                                           ("Not found project: " ++ groups.TenantID sg)%string))
                        end with
                  | (_, Some _) => groups.TenantID sg
                  | (name, None) => name
                  end) = tenantLabel (groups.TenantID sg) (Projects checker)).
    { unfold tenantLabel.
      destruct (findProject (groups.TenantID sg) (Projects checker)); reflexivity. }
    rewrite Hl. subst fr.
    rewrite <- app_assoc. cbn [app nonEmpty]. rewrite Bool.orb_true_r.
    auto.
Qed.

Lemma isFullOpen_spec checker sg ps fips allowed_sg :
  let r := isFullOpen checker sg ps fips allowed_sg in
  let F := if isExposed sg ps fips
           then groupFindings (Cfg_Rules (Cfg checker)) (Projects checker) allowed_sg sg
           else [] in
  fst r = (nonEmpty F, None)
  /\ Cfg (snd r) = Cfg checker
  /\ Projects (snd r) = Projects checker
  /\ Attachments (snd r) = Attachments checker ++ F.
Proof.
  cbv zeta. unfold isFullOpen, isExposed.
  destruct (scanPorts_cases ps sg fips) as [[-> _] | [-> _]].
  - pose proof (scanRules_spec (groups.Rules sg) checker sg allowed_sg false) as H.
    cbv zeta in H. fold (groupFindings (Cfg_Rules (Cfg checker)) (Projects checker)
                                       allowed_sg sg) in H.
    destruct (scanRules checker sg (groups.Rules sg) allowed_sg false) as [b c'].
    cbn [fst snd] in *. destruct H as [H1 [H2 [H3 H4]]].
    rewrite H1. cbn [orb]. auto.
  - cbn. rewrite app_nil_r. auto.
Qed.

Lemma openAccessPass_spec sgs : forall checker ps fips allowed_sg b,
  let r := openAccessPass checker sgs ps fips allowed_sg b in
  let F := passFindings (Cfg_Rules (Cfg checker)) (Projects checker)
                        allowed_sg ps fips sgs in
  fst r = (b || nonEmpty F, None)
  /\ Cfg (snd r) = Cfg checker
  /\ Projects (snd r) = Projects checker
  /\ Attachments (snd r) = Attachments checker ++ F.
Proof.
  induction sgs as [|sg rest IH]; intros checker ps fips allowed_sg b; cbv zeta.
  - cbn. rewrite Bool.orb_false_r, app_nil_r. auto.
  - cbn [openAccessPass passFindings flat_map].
    pose proof (isFullOpen_spec checker sg ps fips allowed_sg) as H. cbv zeta in H.
    destruct (isFullOpen checker sg ps fips allowed_sg) as [[o e] c'].
    cbn [fst snd] in H. destruct H as [H1 [H2 [H3 H4]]].
    injection H1 as -> ->.
    specialize (IH c' ps fips allowed_sg).
    cbv zeta in IH. unfold passFindings in IH. rewrite H2, H3 in IH.
    match goal with
    | |- context [openAccessPass c' rest ps fips allowed_sg ?b'] =>
        destruct (IH b') as [I1 [I2 [I3 I4]]]
    end.
    rewrite I1, I2, I3, I4, H4, nonEmpty_app, <- app_assoc.
    repeat split; auto.
    f_equal.
    destruct (nonEmpty (if isExposed sg ps fips then _ else _)); cbn;
      [rewrite Bool.orb_true_r; reflexivity|].
    reflexivity.
Qed.

(** ** The allow-rule matcher *)

Lemma digit_not_dash c : strings.is_digit c = true -> strings.is_dash c = false.
Proof.
  unfold strings.is_digit, strings.is_dash. intros H.
  destruct (Ascii.eqb_spec c "-"%char) as [-> | _]; [|reflexivity].
  vm_compute in H. discriminate.
Qed.

Lemma takeWhile_digits s : digits s -> strings.takeWhile strings.is_digit s = s.
Proof.
  unfold digits. induction s as [|c s IH]; simpl; [reflexivity|].
  intros H. apply Bool.andb_true_iff in H. destruct H as [Hc Hs].
  rewrite Hc, (IH Hs). reflexivity.
Qed.

Lemma matchHere_digits_dash d rest :
  digits d ->
  regexp.matchHere (d ++ dash ++ rest)%string
  = Some (d, strings.takeWhile strings.is_digit rest).
Proof.
  unfold digits. induction d as [|c d IH]; intros H.
  - reflexivity.
  - cbn [strings.all] in H. apply Bool.andb_true_iff in H. destruct H as [Hc Hd].
    cbn [String.append regexp.matchHere].
    rewrite Hc, (IH Hd). reflexivity.
Qed.

Lemma FindStringSubmatch_digits_dash d rest :
  digits d ->
  regexp.FindStringSubmatch (d ++ dash ++ rest)%string
  = Some (d, strings.takeWhile strings.is_digit rest).
Proof.
  intros H. pose proof (matchHere_digits_dash d rest H) as Hm.
  destruct (d ++ dash ++ rest)%string as [|c s] eqn:E.
  - destruct d; discriminate.
  - cbn [regexp.FindStringSubmatch]. rewrite Hm. reflexivity.
Qed.

Lemma matchHere_digits s : digits s -> regexp.matchHere s = None.
Proof.
  unfold digits. induction s as [|c s IH]; simpl; [reflexivity|].
  intros H. apply Bool.andb_true_iff in H. destruct H as [Hc Hs].
  rewrite Hc, (IH Hs), (digit_not_dash c Hc). reflexivity.
Qed.

Lemma FindStringSubmatch_digits s : digits s -> regexp.FindStringSubmatch s = None.
Proof.
  induction s as [|c s IH]; intros H; [reflexivity|].
  cbn [regexp.FindStringSubmatch]. rewrite (matchHere_digits _ H).
  apply IH. unfold digits in *. simpl in H.
  apply Bool.andb_true_iff in H. tauto.
Qed.

Lemma FindStringSubmatch_range d1 d2 :
  digits d1 -> digits d2 ->
  regexp.FindStringSubmatch (d1 ++ dash ++ d2)%string = Some (d1, d2).
Proof.
  intros H1 H2. rewrite (FindStringSubmatch_digits_dash d1 d2 H1).
  rewrite (takeWhile_digits d2 H2). reflexivity.
Qed.

Lemma digits_app_dash a b : ~ digits (a ++ dash ++ b)%string.
Proof.
  unfold digits. induction a as [|c a IH]; simpl.
  - discriminate.
  - intros H. apply Bool.andb_true_iff in H. tauto.
Qed.


Lemma contains_In slice item : contains slice item = true <-> In item slice.
Proof.
  induction slice as [|a slice IH]; simpl.
  - split; [discriminate | tauto].
  - destruct (String.eqb_spec a item) as [-> | Hne].
    + tauto.
    + rewrite IH. split; [tauto|]. intros [H | H]; [congruence | exact H].
Qed.

Lemma contain_In s e : contain s e = true <-> In e s.
Proof.
  induction s as [|a s IH]; simpl.
  - split; [discriminate | tauto].
  - destruct (String.eqb_spec a e) as [-> | Hne].
    + tauto.
    + rewrite IH. split; [tauto|]. intros [H | H]; [congruence | exact H].
Qed.

(** What the loop over the ports looks for, whatever the entries are. *)
Lemma matchPortRange_spec Port rule :
  matchPortRange Port rule = true <->
  exists port, In port Port
               /\ regexp.FindStringSubmatch port
                  = Some (strconv.Itoa (rules.PortRangeMin rule),
                          strconv.Itoa (rules.PortRangeMax rule)).
Proof.
  induction Port as [|port rest IH]; simpl.
  - split; [discriminate|]. intros [p [[] _]].
  - unfold regexp.MatchString.
    destruct (regexp.FindStringSubmatch port) as [[g1 g2]|] eqn:E.
    + destruct (String.eqb_spec g1 (strconv.Itoa (rules.PortRangeMin rule))) as [-> | N1];
        [destruct (String.eqb_spec g2 (strconv.Itoa (rules.PortRangeMax rule))) as [-> | N2]|];
        simpl.
      * split; [|reflexivity]. intros _. exists port. auto.
      * rewrite IH. split.
        -- intros [p [Hin Hp]]. exists p. auto.
        -- intros [p [[<- | Hin] Hp]]; [congruence | exists p; auto].
      * rewrite IH. split.
        -- intros [p [Hin Hp]]. exists p. auto.
        -- intros [p [[<- | Hin] Hp]]; [congruence | exists p; auto].
    + rewrite IH. split.
      * intros [p [Hin Hp]]. exists p. auto.
      * intros [p [[<- | Hin] Hp]]; [congruence | exists p; auto].
Qed.



(** ** Prefixes *)

Lemma isPrefix_refl {A : Type} (l : list A) : isPrefix l l.
Proof. exists []. symmetry. apply app_nil_r. Qed.

Lemma isPrefix_nil {A : Type} (l : list A) : isPrefix [] l.
Proof. exists l. reflexivity. Qed.

Lemma isPrefix_app_r {A : Type} (l1 l2 : list A) : isPrefix l1 (l1 ++ l2).
Proof. exists l2. reflexivity. Qed.

Lemma isPrefix_app {A : Type} (l a b : list A) :
  isPrefix a b -> isPrefix (l ++ a) (l ++ b).
Proof. intros [c ->]. exists c. apply app_assoc. Qed.

Lemma isPrefix_cons {A : Type} (x : A) (a b : list A) :
  isPrefix a b -> isPrefix (x :: a) (x :: b).
Proof. intros [c ->]. exists c. reflexivity. Qed.

Lemma isPrefix_trans {A : Type} (a b c : list A) :
  isPrefix a b -> isPrefix b c -> isPrefix a c.
Proof. intros [x ->] [y ->]. exists (x ++ y). symmetry. apply app_assoc. Qed.

Lemma isPrefix_map {A B : Type} (f : A -> B) (a b : list A) :
  isPrefix a b -> isPrefix (map f a) (map f b).
Proof. intros [c ->]. exists (map f c). apply map_app. Qed.

Lemma isPrefix_filter {A : Type} (f : A -> bool) (a b : list A) :
  isPrefix a b -> isPrefix (filter f a) (filter f b).
Proof. intros [c ->]. exists (filter f c). apply filter_app. Qed.

Lemma isPrefix_flat_map {A B : Type} (f : A -> list B) (a b : list A) :
  isPrefix a b -> isPrefix (flat_map f a) (flat_map f b).
Proof. intros [c ->]. exists (flat_map f c). apply flat_map_app. Qed.

Lemma isPrefix_In {A : Type} (x : A) (a b : list A) :
  isPrefix a b -> In x a -> In x b.
Proof. intros [c ->] H. apply in_or_app. left. exact H. Qed.

(** ** The policy evaluator *)

Section PolicyProperties.

Variable timeLocalString : Z -> string.
Variable jsonFacts : groups.SecGroup -> option error.
Variable PrepareForEval : list string -> option error.
Variable Eval : list string -> groups.SecGroup -> error + list value.
Variable slackPostMessage :
  list event -> string -> string -> list slack.Attachment
  -> slack.PostMessageParameters -> option error.

Local Abbreviation matchPolicy' := (matchPolicy timeLocalString jsonFacts Eval).
Local Abbreviation policyGroups' := (policyGroups timeLocalString jsonFacts Eval).
Local Abbreviation postWarning' := (postWarning slackPostMessage).
Local Abbreviation policyPass' :=
  (policyPass timeLocalString jsonFacts PrepareForEval Eval slackPostMessage).
Local Abbreviation findingsAmong' := (findingsAmong timeLocalString Eval).
Local Abbreviation policyFindings' := (policyFindings timeLocalString Eval).
Local Abbreviation expectedPolicyTrace' := (expectedPolicyTrace timeLocalString Eval).

Lemma matchPolicy_spec query sg st :
  let r := matchPolicy' query sg st in
  Cfg (chk (snd r)) = Cfg (chk st)
  /\ Projects (chk (snd r)) = Projects (chk st)
  /\ match jsonFacts sg with
     | Some err => r = (Some (false, Some err), st)
     | None =>
         trace (snd r) = trace st ++ [QueryEval query sg]
         /\ Attachments (chk (snd r))
            = Attachments (chk st) ++ findingsAmong' (Projects (chk st)) query [sg]
         /\ (forall b, fst r = Some (b, None) -> b = policyMatch Eval query sg)
     end.
Proof.
  cbv zeta. unfold matchPolicy, findingsAmong, policyMatch.
  cbn [flat_map]. rewrite app_nil_r.
  destruct (jsonFacts sg) as [err|]; [cbn; auto|].
  destruct (Eval query sg) as [err | [|[[|]|] rs]];
    try (cbn; rewrite app_nil_r; repeat split; auto; intros b H; congruence).
  cbn [record chk trace Projects].
  destruct (getProjectNameFromID (groups.TenantID sg) (Projects (chk st)))
    as [projectName e].
  cbn. repeat split; auto; intros b H; congruence.
Qed.

Lemma findingsAmong_cons projs query sg sgs :
  findingsAmong' projs query (sg :: sgs)
  = findingsAmong' projs query [sg] ++ findingsAmong' projs query sgs.
Proof. unfold findingsAmong. cbn [flat_map]. rewrite app_nil_r. reflexivity. Qed.

Lemma nonEmpty_findingsAmong_one projs query sg :
  nonEmpty (findingsAmong' projs query [sg]) = policyMatch Eval query sg.
Proof.
  unfold findingsAmong. cbn [flat_map].
  destruct (policyMatch Eval query sg); reflexivity.
Qed.

Lemma policyGroups_spec query allowed_sg sgs : forall b st,
  let r := policyGroups' query sgs allowed_sg b st in
  Cfg (chk (snd r)) = Cfg (chk st)
  /\ Projects (chk (snd r)) = Projects (chk st)
  /\ exists done,
      isPrefix done (nonExempt allowed_sg sgs)
      /\ trace (snd r) = trace st ++ map (QueryEval query) done
      /\ Attachments (chk (snd r))
         = Attachments (chk st) ++ findingsAmong' (Projects (chk st)) query done
      /\ (forall b' e, fst r = Some (b', e) -> e = None ->
            done = nonExempt allowed_sg sgs
            /\ b' = b || nonEmpty (findingsAmong' (Projects (chk st)) query done)).
Proof.
  induction sgs as [|sg rest IH]; intros b st; cbv zeta.
  - cbn. split; [reflexivity|]. split; [reflexivity|].
    exists []. cbn. rewrite !app_nil_r, Bool.orb_false_r.
    repeat split; auto using isPrefix_refl; congruence.
  - cbn [policyGroups]. unfold nonExempt. cbn [filter].
    destruct (contain allowed_sg (groups.ID sg)); cbn [negb]; [apply IH|].
    pose proof (matchPolicy_spec query sg st) as M. cbv zeta in M.
    destruct M as [MC [MP M]].
    destruct (jsonFacts sg) as [err|].
    + rewrite M. cbn. split; [reflexivity|]. split; [reflexivity|].
      exists []. cbn. rewrite !app_nil_r.
      repeat split; auto using isPrefix_nil; intros; congruence.
    + destruct M as [MT [MA MB]].
      destruct (matchPolicy' query sg st) as [[[matched [err|]]|] st'];
        cbn [fst snd] in *.
      * split; [exact MC|]. split; [exact MP|].
        exists [sg]. cbn [map]. rewrite MT, MA.
        repeat split; auto using isPrefix_cons, isPrefix_nil; intros; congruence.
      * specialize (IH (if matched then true else b) st'). cbv zeta in IH.
        destruct IH as [IC [IP [done [Hp [HT [HA HS]]]]]].
        rewrite IC, IP, MC, MP. split; [reflexivity|]. split; [reflexivity|].
        exists (sg :: done). rewrite HT, HA, MT, MA, MP.
        rewrite findingsAmong_cons with (sgs := done).
        cbn [map]. rewrite <- !app_assoc. cbn [app].
        split; [apply isPrefix_cons; exact Hp|].
        split; [reflexivity|]. split; [reflexivity|].
        intros b' e Hb He. destruct (HS b' e Hb He) as [-> ->].
        split; [reflexivity|].
        rewrite nonEmpty_app, nonEmpty_findingsAmong_one, MP.
        rewrite (MB matched eq_refl).
        destruct (policyMatch Eval query sg), b; reflexivity.
      * split; [exact MC|]. split; [exact MP|].
        exists [sg]. cbn [map]. rewrite MT, MA.
        repeat split; auto using isPrefix_cons, isPrefix_nil; intros; congruence.
Qed.

Lemma postItems_spec channel params items : forall st,
  let r := postItems slackPostMessage channel items params st in
  chk (snd r) = chk st
  /\ exists T,
      trace (snd r) = trace st ++ T
      /\ isPrefix T (map (fun item => PostMessage channel EmptyString [item] params) items)
      /\ (fst r = None ->
          T = map (fun item => PostMessage channel EmptyString [item] params) items).
Proof.
  induction items as [|item rest IH]; intros st; cbv zeta.
  - cbn. split; [reflexivity|]. exists []. rewrite app_nil_r.
    auto using isPrefix_refl.
  - cbn [postItems postMessage map].
    destruct (slackPostMessage (trace st) channel EmptyString [item] params) as [err|].
    + cbn. split; [reflexivity|]. eexists. split; [reflexivity|].
      split; [apply isPrefix_cons, isPrefix_nil | discriminate].
    + specialize (IH (record (PostMessage channel EmptyString [item] params) st)).
      cbv zeta in IH. destruct IH as [IC [T [HT [HP HS]]]].
      split; [rewrite IC; reflexivity|].
      exists (PostMessage channel EmptyString [item] params :: T).
      rewrite HT. cbn [record trace]. rewrite <- app_assoc.
      split; [reflexivity|].
      split; [apply isPrefix_cons; exact HP|].
      intros H. rewrite (HS H). reflexivity.
Qed.

Lemma postWarning_spec attachments prefix suffix st :
  let r := postWarning' attachments prefix suffix st in
  chk (snd r) = chk st
  /\ exists T,
      trace (snd r) = trace st ++ T
      /\ isPrefix T (batch (Cfg (chk st)) attachments prefix suffix)
      /\ (fst r = None -> T = batch (Cfg (chk st)) attachments prefix suffix).
Proof.
  cbv zeta. unfold postWarning, batch.
  cbn [postMessage].
  set (params := {| slack.Username := Cfg_Username (Cfg (chk st));
                    slack.IconEmoji := Cfg_IconEmoji (Cfg (chk st)) |}).
  set (channel := Cfg_SlackChannel (Cfg (chk st))).
  destruct (slackPostMessage (trace st) channel prefix [] params) as [err|].
  - cbn. split; [reflexivity|]. eexists. split; [reflexivity|].
    split; [apply isPrefix_cons, isPrefix_nil | discriminate].
  - pose proof (postItems_spec channel params attachments
                  (record (PostMessage channel prefix [] params) st)) as I.
    cbv zeta in I. destruct I as [IC [T [HT [HP HS]]]].
    destruct (postItems slackPostMessage channel attachments params
                (record (PostMessage channel prefix [] params) st)) as [[err|] st2];
      cbn [fst snd] in *.
    + split; [exact IC|].
      exists (PostMessage channel prefix [] params :: T).
      rewrite HT. cbn [record trace]. rewrite <- app_assoc.
      split; [reflexivity|].
      split; [|discriminate].
      apply isPrefix_cons.
      apply isPrefix_trans with (1 := HP). apply isPrefix_app_r.
    + rewrite (HS eq_refl) in HT.
      destruct (slackPostMessage (trace st2) channel suffix [] params) as [err|];
        cbn [fst snd record chk trace].
      * split; [exact IC|]. eexists. rewrite HT. cbn [record trace].
        rewrite <- !app_assoc. split; [reflexivity|].
        split; [|discriminate].
        cbn [app]. apply isPrefix_cons. apply isPrefix_app, isPrefix_cons, isPrefix_nil.
      * split; [exact IC|]. eexists. rewrite HT. cbn [record trace].
        rewrite <- !app_assoc. split; [reflexivity|].
        split; [apply isPrefix_refl | reflexivity].
Qed.

Lemma policyPass_spec allowed_sg sgs policies : forall st,
  let r := policyPass' policies sgs allowed_sg st in
  Cfg (chk (snd r)) = Cfg (chk st)
  /\ Projects (chk (snd r)) = Projects (chk st)
  /\ exists T A,
      trace (snd r) = trace st ++ T
      /\ isPrefix T (expectedPolicyTrace' (Cfg (chk st)) (Projects (chk st))
                       allowed_sg sgs policies (Attachments (chk st)))
      /\ Attachments (chk (snd r)) = Attachments (chk st) ++ A
      /\ isPrefix A (flat_map (policyFindings' (Projects (chk st)) allowed_sg sgs)
                              policies)
      /\ (fst r = Some None ->
          T = expectedPolicyTrace' (Cfg (chk st)) (Projects (chk st))
                allowed_sg sgs policies (Attachments (chk st))
          /\ A = flat_map (policyFindings' (Projects (chk st)) allowed_sg sgs) policies).
Proof.
  induction policies as [|policy rest IH]; intros st; cbv zeta.
  - cbn. split; [reflexivity|]. split; [reflexivity|].
    exists [], []. rewrite !app_nil_r. auto 8 using isPrefix_refl.
  - cbn [policyPass expectedPolicyTrace flat_map].
    destruct (PrepareForEval (policyPaths policy)) as [err|].
    { cbn. split; [reflexivity|]. split; [reflexivity|].
      exists [], []. rewrite !app_nil_r.
      repeat split; auto using isPrefix_nil; intros; congruence. }
    pose proof (policyGroups_spec (policyPaths policy) allowed_sg sgs false st) as G.
    cbv zeta in G. destruct G as [GC [GP [done [Hd [GT [GA GS]]]]]].
    fold (policyFindings' (Projects (chk st)) allowed_sg sgs policy).
    assert (Hq : isPrefix (map (QueryEval (policyPaths policy)) done)
                          (policyQueries allowed_sg sgs policy)).
    { apply isPrefix_map. exact Hd. }
    assert (Hf : isPrefix (findingsAmong' (Projects (chk st)) (policyPaths policy) done)
                          (policyFindings' (Projects (chk st)) allowed_sg sgs policy)).
    { apply isPrefix_flat_map. exact Hd. }
    destruct (policyGroups' (policyPaths policy) sgs allowed_sg false st)
      as [[[ex [err|]]|] st']; cbn [fst snd] in *.
    + split; [exact GC|]. split; [exact GP|].
      eexists. eexists. split; [exact GT|].
      split; [apply isPrefix_trans with (1 := Hq), isPrefix_app_r|].
      split; [exact GA|].
      split; [apply isPrefix_trans with (1 := Hf), isPrefix_app_r|].
      intros; congruence.
    + destruct (GS ex None eq_refl eq_refl) as [-> Hex]. cbn [orb] in Hex.
      fold (policyFindings' (Projects (chk st)) allowed_sg sgs policy) in Hex, GA.
      fold (policyQueries allowed_sg sgs policy) in GT.
      specialize (IH st') as IH'. cbv zeta in IH'. rewrite GC, GP, GA in IH'.
      unfold policyBatch. rewrite GC, <- Hex.
      destruct (ex && negb (Cfg_DryRun (Cfg (chk st)))).
      * rewrite GA.
        pose proof (postWarning_spec
                      (Attachments (chk st)
                       ++ policyFindings' (Projects (chk st)) allowed_sg sgs policy)
                      (Policy_PrefixMessage policy) (Policy_SuffixMessage policy) st') as W.
        cbv zeta in W. rewrite GC in W. destruct W as [WC [Tp [WT [WP WS]]]].
        destruct (postWarning'
                    (Attachments (chk st)
                     ++ policyFindings' (Projects (chk st)) allowed_sg sgs policy)
                    (Policy_PrefixMessage policy)
                    (Policy_SuffixMessage policy) st') as [[err|] st''];
          cbn [fst snd] in *.
        -- rewrite WC. split; [exact GC|]. split; [exact GP|].
           exists (policyQueries allowed_sg sgs policy ++ Tp). eexists.
           rewrite WT, GT, <- app_assoc. split; [reflexivity|].
           split; [apply isPrefix_app, isPrefix_trans with (1 := WP), isPrefix_app_r|].
           split; [exact GA|].
           split; [apply isPrefix_app_r|].
           intros; congruence.
        -- specialize (IH st''). cbv zeta in IH. rewrite WC, GC, GP, GA in IH.
           destruct IH as [IC [IP [T [A [HT [HTp [HA [HAp HS]]]]]]]].
           split; [exact IC|]. split; [exact IP|].
           exists (policyQueries allowed_sg sgs policy ++ Tp ++ T).
           exists (policyFindings' (Projects (chk st)) allowed_sg sgs policy ++ A).
           rewrite HT, WT, GT, HA, <- !app_assoc.
           split; [reflexivity|].
           rewrite (WS eq_refl) in *.
           split; [apply isPrefix_app, isPrefix_app; exact HTp|].
           split; [reflexivity|].
           split; [apply isPrefix_app; exact HAp|].
           intros H. destruct (HS H) as [-> ->]. auto.
      * destruct IH' as [IC [IP [T [A [HT [HTp [HA [HAp HS]]]]]]]].
        split; [exact IC|]. split; [exact IP|].
        exists (policyQueries allowed_sg sgs policy ++ T).
        exists (policyFindings' (Projects (chk st)) allowed_sg sgs policy ++ A).
        rewrite HT, GT, HA, <- !app_assoc. cbn [app].
        split; [reflexivity|].
        split; [apply isPrefix_app; exact HTp|].
        split; [reflexivity|].
        split; [apply isPrefix_app; exact HAp|].
        intros H. destruct (HS H) as [-> ->]. auto.
    + split; [exact GC|]. split; [exact GP|].
      eexists. eexists. split; [exact GT|].
      split; [apply isPrefix_trans with (1 := Hq), isPrefix_app_r|].
      split; [exact GA|].
      split; [apply isPrefix_trans with (1 := Hf), isPrefix_app_r|].
      intros; congruence.
Qed.

Local Abbreviation evaluate' :=
  (evaluate timeLocalString jsonFacts PrepareForEval Eval slackPostMessage).

Lemma evaluate_spec allowed_sg ps fips sgs st :
  let r := evaluate' allowed_sg ps fips sgs st in
  let cfg := Cfg (chk st) in
  let projs := Projects (chk st) in
  let F := passFindings (Cfg_Rules cfg) projs allowed_sg ps fips sgs in
  fst r = Some None ->
  trace (snd r)
  = trace st ++ openAccessBatch cfg (Attachments (chk st)) F
    ++ expectedPolicyTrace' cfg projs allowed_sg sgs (Cfg_Policies cfg) []
  /\ Attachments (chk (snd r))
     = flat_map (policyFindings' projs allowed_sg sgs) (Cfg_Policies cfg).
Proof.
  cbv zeta. unfold evaluate, openAccessBatch.
  pose proof (openAccessPass_spec sgs (chk st) ps fips allowed_sg false) as O.
  cbv zeta in O. destruct O as [O1 [O2 [O3 O4]]].
  destruct (openAccessPass (chk st) sgs ps fips allowed_sg false) as [[ex e] checker'].
  cbn [fst snd] in *. injection O1 as -> ->. cbn [orb].
  rewrite O2, O4.
  set (F := passFindings (Cfg_Rules (Cfg (chk st))) (Projects (chk st))
                         allowed_sg ps fips sgs) in *.
  assert (K : forall st2 T,
             chk st2 = checker' -> trace st2 = trace st ++ T ->
             let r := policyPass' (Cfg_Policies (Cfg (chk st))) sgs allowed_sg
                        {| chk := set_Attachments (chk st2) []; trace := trace st2 |} in
             fst r = Some None ->
             trace (snd r)
             = trace st ++ T
               ++ expectedPolicyTrace' (Cfg (chk st)) (Projects (chk st)) allowed_sg sgs
                    (Cfg_Policies (Cfg (chk st))) []
             /\ Attachments (chk (snd r))
                = flat_map (policyFindings' (Projects (chk st)) allowed_sg sgs)
                           (Cfg_Policies (Cfg (chk st)))).
  { intros [c2 t2] T Hc Ht. cbn [chk trace] in Hc, Ht. subst c2 t2.
    cbv zeta. cbn [chk trace].
    pose proof (policyPass_spec allowed_sg sgs (Cfg_Policies (Cfg (chk st)))
                  {| chk := set_Attachments checker' []; trace := trace st ++ T |}) as P.
    cbv zeta in P. cbn [chk trace set_Attachments Cfg Projects Attachments] in P.
    rewrite O2, O3 in P.
    destruct P as [_ [_ [T' [A [HT [_ [HA [_ HS]]]]]]]].
    intros Hok. destruct (HS Hok) as [-> ->].
    rewrite HT, HA, <- app_assoc. auto. }
  destruct (nonEmpty F && negb (Cfg_DryRun (Cfg (chk st)))).
  - pose proof (postWarning_spec (Attachments (chk st) ++ F)
                  (Cfg_PrefixMessage (Cfg (chk st))) (Cfg_SuffixMessage (Cfg (chk st)))
                  {| chk := checker'; trace := trace st |}) as W.
    cbv zeta in W. cbn [chk trace] in W. rewrite O2 in W.
    destruct W as [WC [T [WT [_ WS]]]].
    destruct (postWarning' (Attachments (chk st) ++ F)
                (Cfg_PrefixMessage (Cfg (chk st))) (Cfg_SuffixMessage (Cfg (chk st)))
                {| chk := checker'; trace := trace st |}) as [[err|] st2];
      cbn [fst snd] in *; [discriminate|].
    rewrite WC. cbn [chk set_Attachments Cfg]. rewrite O2.
    rewrite <- (WS eq_refl).
    pose proof (K st2 T WC WT) as K'. cbv zeta in K'.
    rewrite WC in K'. exact K'.
  - cbn [chk trace set_Attachments Cfg]. rewrite O2.
    pose proof (K {| chk := checker'; trace := trace st |} [] eq_refl
                  (eq_sym (app_nil_r _))) as K'.
    cbv zeta in K'. cbn [chk trace] in K'. exact K'.
Qed.

Lemma expectedPolicyTrace_app cfg projs allowed_sg sgs pre : forall post acc,
  expectedPolicyTrace' cfg projs allowed_sg sgs (pre ++ post) acc
  = expectedPolicyTrace' cfg projs allowed_sg sgs pre acc
    ++ expectedPolicyTrace' cfg projs allowed_sg sgs post
         (acc ++ flat_map (policyFindings' projs allowed_sg sgs) pre).
Proof.
  induction pre as [|policy pre IH]; intros post acc; cbn [app expectedPolicyTrace flat_map].
  - rewrite app_nil_r. reflexivity.
  - rewrite IH, <- !app_assoc. reflexivity.
Qed.

Lemma queriesOf_app T1 T2 : queriesOf (T1 ++ T2) = queriesOf T1 ++ queriesOf T2.
Proof. apply filter_app. Qed.

Lemma queriesOf_queries query sgs :
  queriesOf (map (QueryEval query) sgs) = map (QueryEval query) sgs.
Proof. induction sgs as [|sg sgs IH]; cbn; [|rewrite <- IH at 2]; reflexivity. Qed.

Lemma queriesOf_batch cfg attachments prefix suffix :
  queriesOf (batch cfg attachments prefix suffix) = [].
Proof.
  unfold batch. cbn. rewrite queriesOf_app. cbn. rewrite app_nil_r.
  induction attachments as [|a l IH]; cbn; auto.
Qed.

Lemma queriesOf_expected cfg projs allowed_sg sgs policies : forall acc,
  queriesOf (expectedPolicyTrace' cfg projs allowed_sg sgs policies acc)
  = flat_map (policyQueries allowed_sg sgs) policies.
Proof.
  induction policies as [|policy rest IH]; intros acc; cbn [expectedPolicyTrace flat_map].
  - reflexivity.
  - rewrite !queriesOf_app, IH. unfold policyQueries at 1.
    rewrite queriesOf_queries. f_equal.
    unfold policyBatch. destruct (_ && _); [|reflexivity].
    rewrite queriesOf_batch. reflexivity.
Qed.

(** C7. The policy evaluator puts no query to the engine for a group whose id
    is in the dynamic allow-list and adds no policy-match finding for it.
    The queries of a run are, in order, an initial part of the sequence
    that has one query per configured policy and group outside the
    allow-list, and the whole of it when the pass returns without error. *)
Theorem policyPass_skips_exempt_groups
        policies sgs allowed_sg st (res : option (option error)) st' :
  policyPass' policies sgs allowed_sg st = (res, st') ->
  exists T A,
    trace st' = trace st ++ T
    /\ Attachments (chk st') = Attachments (chk st) ++ A
    /\ (forall query sg,
          In (QueryEval query sg) T -> contain allowed_sg (groups.ID sg) = false)
    /\ (forall a,
          In a A ->
          exists sg projectName,
            In sg sgs /\ contain allowed_sg (groups.ID sg) = false
            /\ a = policyAttachment timeLocalString projectName sg)
    /\ isPrefix (queriesOf T) (flat_map (policyQueries allowed_sg sgs) policies)
    /\ (res = Some None ->
        queriesOf T = flat_map (policyQueries allowed_sg sgs) policies).
Proof.
  intros E.
  pose proof (policyPass_spec allowed_sg sgs policies st) as P. cbv zeta in P.
  rewrite E in P. cbn [fst snd] in P.
  destruct P as [_ [_ [T [A [HT [HTp [HA [HAp HS]]]]]]]].
  assert (HQ : isPrefix (queriesOf T) (flat_map (policyQueries allowed_sg sgs) policies)).
  { rewrite <- (queriesOf_expected (Cfg (chk st)) (Projects (chk st)) allowed_sg sgs
                                    policies (Attachments (chk st))).
    apply isPrefix_filter. exact HTp. }
  exists T, A. repeat apply conj; trivial.
  - intros query sg Hin.
    assert (Hq : In (QueryEval query sg) (queriesOf T)).
    { apply filter_In. split; [exact Hin | reflexivity]. }
    apply (isPrefix_In _ _ _ HQ) in Hq.
    apply in_flat_map in Hq. destruct Hq as [policy [_ Hq]].
    apply in_map_iff in Hq. destruct Hq as [sg' [Heq Hin']].
    injection Heq as _ ->.
    apply filter_In in Hin'. destruct Hin' as [_ Hn].
    apply Bool.negb_true_iff. exact Hn.
  - intros a Hin.
    apply (isPrefix_In _ _ _ HAp) in Hin.
    apply in_flat_map in Hin. destruct Hin as [policy [_ Hin]].
    apply in_flat_map in Hin. destruct Hin as [sg [Hsg Hin]].
    apply filter_In in Hsg. destruct Hsg as [Hsg Hn].
    exists sg. eexists. split; [exact Hsg|].
    split; [apply Bool.negb_true_iff; exact Hn|].
    destruct (policyMatch Eval (policyPaths policy) sg); [|destruct Hin].
    destruct Hin as [<- | []]. reflexivity.
  - intros ->. destruct (HS eq_refl) as [-> _].
    apply queriesOf_expected.
Qed.

(** C9. In a run that completes, the accumulator of findings is emptied once,
    after the open-access pass, and not again: the batch posted for a
    policy with findings carries the findings of all the policies before
    it followed by its own, and none of the open-access pass; at the end
    the accumulator holds the findings of all policies. *)
Theorem policy_batches_accumulate
        allowed_sg ps fips sgs st (pre : list Policy) policy (post : list Policy) :
  let r := evaluate' allowed_sg ps fips sgs st in
  let cfg := Cfg (chk st) in
  let projs := Projects (chk st) in
  let found := policyFindings' projs allowed_sg sgs in
  fst r = Some None ->
  Cfg_Policies cfg = pre ++ policy :: post ->
  Cfg_DryRun cfg = false ->
  nonEmpty (found policy) = true ->
  trace (snd r)
  = (trace st
     ++ openAccessBatch cfg (Attachments (chk st))
          (passFindings (Cfg_Rules cfg) projs allowed_sg ps fips sgs)
     ++ expectedPolicyTrace' cfg projs allowed_sg sgs pre []
     ++ policyQueries allowed_sg sgs policy)
    ++ batch cfg (flat_map found pre ++ found policy)
             (Policy_PrefixMessage policy) (Policy_SuffixMessage policy)
    ++ expectedPolicyTrace' cfg projs allowed_sg sgs post
         (flat_map found pre ++ found policy)
  /\ Attachments (chk (snd r)) = flat_map found (pre ++ policy :: post).
Proof.
  cbv zeta. intros Hok Hpol Hdry Hne.
  destruct (evaluate_spec allowed_sg ps fips sgs st Hok) as [HT HA].
  rewrite HT, HA, Hpol. split; [|reflexivity].
  rewrite expectedPolicyTrace_app. cbn [expectedPolicyTrace app].
  unfold policyBatch. rewrite Hne, Hdry. cbn [negb andb].
  rewrite <- !app_assoc. reflexivity.
Qed.

(** With no project of the tenant's id, the finding that [matchPolicy] adds
    for a matching group has the empty string as its tenant label, and the
    miss is not returned as an error. *)
Lemma matchPolicy_label_on_miss query sg st :
  jsonFacts sg = None ->
  policyMatch Eval query sg = true ->
  findProject (groups.TenantID sg) (Projects (chk st)) = None ->
  let r := matchPolicy' query sg st in
  fst r = Some (true, None)
  /\ Attachments (chk (snd r))
     = Attachments (chk st) ++ [policyAttachment timeLocalString EmptyString sg].
Proof.
  intros Hj Hm Hf. cbv zeta. unfold matchPolicy, policyMatch in *.
  rewrite Hj.
  destruct (Eval query sg) as [err | [|[[|]|] rs]]; try discriminate.
  cbn [record chk Projects]. rewrite getProjectNameFromID_find, Hf.
  cbn. auto.
Qed.

End PolicyProperties.

(** * Main results *)

(** ** The IP classifier *)

(** C6. Every address of 10.0.0.0/8, 172.16.0.0/12 and 192.168.0.0/16, every
    loopback address and every link-local unicast or multicast address is
    classified private; 8.8.8.8 and 1.1.1.1 are classified public. *)
Theorem isPrivateIP_classifies (ip : net.IP) :
  privateAddress ip ->
  isPrivateIP ip = (true, None)
  /\ isPrivateIP (net.ParseIP "8.8.8.8") = (false, None)
  /\ isPrivateIP (net.ParseIP "1.1.1.1") = (false, None).
Proof.
  intros H. split; [apply isPrivateIP_private; exact H|].
  split; vm_compute; reflexivity.
Qed.

Lemma isPrivateIP_classifies_witness :
  privateAddress (net.ParseIP "172.20.1.7")
  /\ isPrivateIP (net.ParseIP "172.20.1.7") = (true, None)
  /\ isPrivateIP (net.ParseIP "8.8.8.8") = (false, None)
  /\ isPrivateIP (net.ParseIP "1.1.1.1") = (false, None).
Proof.
  assert (H : privateAddress (net.ParseIP "172.20.1.7")).
  { apply in_172_16_12 with (b := 20) (c := 1) (d := 7); [right; reflexivity | lia]. }
  split; [exact H | exact (isPrivateIP_classifies _ H)].
Defined.

(** C10. [isPrivateIP] returns a boolean and a nil error on every value: the
    three hard-coded ranges parse, so its error branch is never taken.  The
    nil address, which is what a text that does not parse gives, is
    classified not private, and the exposure check takes a port with such a
    fixed address for one with a public address. *)
Theorem isPrivateIP_nil_is_public (s : string) :
  net.ParseIP s = [] ->
  (forall ip, exists b, isPrivateIP ip = (b, None))
  /\ (exists blocks, parseBlocks privateCIDRs [] = inr blocks)
  /\ isPrivateIP [] = (false, None)
  /\ isPrivateIP (net.ParseIP s) = (false, None)
  /\ (forall ip rest,
        ports.IPAddress ip = s -> scanFixedIPs (ip :: rest) = BreakIGNOREPORT).
Proof.
  intros Hs.
  split; [exact isPrivateIP_total|].
  split; [eexists; exact parseBlocks_privateCIDRs|].
  split; [reflexivity|].
  split; [rewrite Hs; reflexivity|].
  intros ip rest <-. cbn [scanFixedIPs]. rewrite Hs. reflexivity.
Qed.

Lemma isPrivateIP_nil_is_public_witness :
  net.ParseIP "not-an-ip" = []
  /\ (forall ip, exists b, isPrivateIP ip = (b, None))
  /\ (exists blocks, parseBlocks privateCIDRs [] = inr blocks)
  /\ isPrivateIP [] = (false, None)
  /\ isPrivateIP (net.ParseIP "not-an-ip") = (false, None)
  /\ (forall ip rest,
        ports.IPAddress ip = "not-an-ip" -> scanFixedIPs (ip :: rest) = BreakIGNOREPORT).
Proof.
  split; [reflexivity | apply (isPrivateIP_nil_is_public "not-an-ip"); reflexivity].
Defined.

(** C4, as the specification states it, fails: a text that is no IP address
    is classified without any error. *)
Lemma unparseable_address_gives_no_error :
  ~ (forall s, net.ParseIP s = [] ->
               exists err, snd (isPrivateIP (net.ParseIP s)) = Some err).
Proof.
  intros H. destruct (H "not-an-ip" eq_refl) as [err E].
  vm_compute in E. discriminate.
Qed.

(** C4, amended.  A text that cannot be parsed as an IP address is classified
    not private, with no error; a group attached to a port that has such a
    fixed address is exposed, and [isFullOpen] returns no error for it. *)
Theorem unparseable_address_is_public (s : string) :
  net.ParseIP s = [] ->
  isPrivateIP (net.ParseIP s) = (false, None)
  /\ forall sg ps fips port ip,
       In port ps -> In (groups.ID sg) (ports.SecurityGroups port) ->
       In ip (ports.FixedIPs port) -> ports.IPAddress ip = s ->
       isExposed sg ps fips = true
       /\ forall checker allowed_sg,
            snd (fst (isFullOpen checker sg ps fips allowed_sg)) = None.
Proof.
  intros Hs.
  assert (Hp : isPrivateIP (net.ParseIP s) = (false, None)) by (rewrite Hs; reflexivity).
  split; [exact Hp|].
  intros sg ps fips port ip Hport Hsg Hip Haddr.
  split; [|intros; apply isFullOpen_no_error].
  unfold isExposed.
  assert (E : scanPorts ps sg fips = BreakIGNOREPORT).
  { apply scanPorts_exposed_iff. exists port. split; [exact Hport|].
    split; [exact Hsg|]. right. exists ip. split; [exact Hip|].
    unfold classifiesPublic. rewrite Haddr. exact Hp. }
  rewrite E. reflexivity.
Qed.

Lemma unparseable_address_is_public_witness :
  net.ParseIP "not-an-ip" = []
  /\ isExposed Example.sg1 [Example.portBogus] [] = true.
Proof.
  split; [reflexivity|].
  destruct (unparseable_address_is_public "not-an-ip" eq_refl) as [_ H].
  refine (proj1 (H Example.sg1 [Example.portBogus] [] Example.portBogus
                   {| ports.SubnetID := "s1"; ports.IPAddress := "not-an-ip" |}
                   _ _ _ _)).
  - left; reflexivity.
  - left; reflexivity.
  - left; reflexivity.
  - reflexivity.
Defined.

(** ** The exposure filter *)

(** C3. A group is exposed exactly when some port lists its id among its
    security groups and either a floating IP is bound to that port or one of
    the fixed addresses of the port is classified public.  A group that no
    port lists is not exposed, and [isFullOpen] then reports nothing,
    whatever the rules of the group. *)
Theorem isExposed_iff sg ps fips :
  (isExposed sg ps fips = true <->
   exists port,
     In port ps /\ In (groups.ID sg) (ports.SecurityGroups port)
     /\ ((exists fip, In fip fips /\ floatingips.PortID fip = ports.ID port)
         \/ (exists ip, In ip (ports.FixedIPs port)
                        /\ isPrivateIP (net.ParseIP (ports.IPAddress ip)) = (false, None))))
  /\ ((forall port, In port ps -> ~ In (groups.ID sg) (ports.SecurityGroups port)) ->
      isExposed sg ps fips = false
      /\ forall checker allowed_sg,
           isFullOpen checker sg ps fips allowed_sg = ((false, None), checker)).
Proof.
  unfold isExposed.
  pose proof (scanPorts_exposed_iff ps sg fips) as I.
  unfold portReachable, classifiesPublic in I.
  split.
  - rewrite <- I.
    destruct (scanPorts_cases ps sg fips) as [[-> _] | [-> _]];
      split; congruence.
  - intros Hno.
    assert (E : scanPorts ps sg fips = ScanNext).
    { apply scanPorts_not_exposed. intros B. apply I in B.
      destruct B as [port [Hin [Hsg _]]]. exact (Hno port Hin Hsg). }
    rewrite E. split; [reflexivity|].
    intros. apply isFullOpen_not_exposed. exact E.
Qed.

Lemma isExposed_iff_witness :
  isExposed Example.sg1 [] [] = false
  /\ isFullOpen (Example.checker [] []) Example.sg1 [] [] []
     = ((false, None), Example.checker [] []).
Proof.
  destruct (proj2 (isExposed_iff Example.sg1 [] [])) as [H1 H2].
  - intros port [].
  - split; [exact H1 | apply H2].
Defined.

(** ** The allow-rule matcher *)



(** ** The open-access evaluator *)

(** C1. For an exposed group, the rules that count are those of protocol
    [tcp], direction [ingress] and prefix [0.0.0.0/0] exactly.  [isFullOpen]
    appends, in the order of the rules, one finding for every such rule that
    the allow-rule matcher does not match, unless the id of the group is in
    the dynamic allow-list; for a group in that list it appends nothing,
    matched or not. *)
Theorem isFullOpen_findings checker sg ps fips allowed_sg :
  isExposed sg ps fips = true ->
  let r := isFullOpen checker sg ps fips allowed_sg in
  let allowRules := Cfg_Rules (Cfg checker) in
  let findings := ruleFindings allowRules (Projects checker) allowed_sg sg in
  let finding :=
    openAccessAttachment (tenantLabel (groups.TenantID sg) (Projects checker)) sg in
  (forall rule, isViolation rule = true <-> violationCandidate rule)
  /\ Attachments (snd r) = Attachments checker ++ flat_map findings (groups.Rules sg)
  /\ (forall rule,
        violationCandidate rule -> matchAllowdRule allowRules sg rule = false ->
        ~ In (groups.ID sg) allowed_sg -> findings rule = [finding rule])
  /\ (forall rule,
        ~ violationCandidate rule \/ matchAllowdRule allowRules sg rule = true
        \/ In (groups.ID sg) allowed_sg -> findings rule = [])
  /\ (In (groups.ID sg) allowed_sg ->
      Attachments (snd r) = Attachments checker /\ fst r = (false, None)).
Proof.
  intros Hexp. cbv zeta.
  pose proof (isFullOpen_spec checker sg ps fips allowed_sg) as S. cbv zeta in S.
  rewrite Hexp in S. destruct S as [S1 [_ [_ S4]]]. unfold groupFindings in *.
  assert (Hnone : forall rule,
             ~ violationCandidate rule
             \/ matchAllowdRule (Cfg_Rules (Cfg checker)) sg rule = true
             \/ In (groups.ID sg) allowed_sg ->
             ruleFindings (Cfg_Rules (Cfg checker)) (Projects checker) allowed_sg sg rule
             = []).
  { intros rule H. unfold ruleFindings.
    destruct (isViolation rule) eqn:V; [|reflexivity].
    destruct H as [H | [H | H]].
    - exfalso. apply H. apply isViolation_spec. exact V.
    - rewrite H. reflexivity.
    - apply contain_In in H. rewrite H, Bool.orb_true_r. reflexivity. }
  split; [exact isViolation_spec|].
  split; [exact S4|].
  split; [|split; [exact Hnone|]].
  - intros rule V M N. unfold ruleFindings.
    apply isViolation_spec in V. rewrite V, M.
    destruct (contain allowed_sg (groups.ID sg)) eqn:C; [|reflexivity].
    exfalso. apply N. apply contain_In. exact C.
  - intros Hin.
    assert (E : forall rs,
               flat_map (ruleFindings (Cfg_Rules (Cfg checker)) (Projects checker)
                                      allowed_sg sg) rs = []).
    { induction rs as [|rule rest IH]; [reflexivity|].
      cbn [flat_map]. rewrite IH, (Hnone rule); auto. }
    rewrite S4, S1, E, app_nil_r. auto.
Qed.

Lemma isFullOpen_findings_witness :
  isExposed Example.sg9 [Example.port1] [] = true
  /\ Attachments (snd (isFullOpen (Example.checker [] []) Example.sg9
                                  [Example.port1] [] ["sg-9"])) = [].
Proof.
  split; [reflexivity|].
  destruct (isFullOpen_findings (Example.checker [] []) Example.sg9 [Example.port1] []
                                ["sg-9"] eq_refl) as [_ [_ [_ [_ H]]]].
  apply H. left. reflexivity.
Defined.

(** C8. A second pass of the open-access evaluator over the same inventory,
    allow rules and allow-list appends the same findings, in the same
    order, as the first, and returns the same flag. *)
Theorem openAccessPass_idempotent checker sgs ps fips allowed_sg :
  let F := passFindings (Cfg_Rules (Cfg checker)) (Projects checker)
                        allowed_sg ps fips sgs in
  let r1 := openAccessPass checker sgs ps fips allowed_sg false in
  let r2 := openAccessPass (snd r1) sgs ps fips allowed_sg false in
  Attachments (snd r1) = Attachments checker ++ F
  /\ Attachments (snd r2) = Attachments (snd r1) ++ F
  /\ fst r1 = fst r2.
Proof.
  cbv zeta.
  destruct (openAccessPass_spec sgs checker ps fips allowed_sg false)
    as [A1 [A2 [A3 A4]]].
  destruct (openAccessPass_spec sgs (snd (openAccessPass checker sgs ps fips allowed_sg false))
                                ps fips allowed_sg false) as [B1 [_ [_ B4]]].
  rewrite A2, A3 in B1, B4.
  split; [exact A4|]. split; [exact B4|]. rewrite A1, B1. reflexivity.
Qed.

(** ** Tenant resolution *)

(** C5, at a group whose tenant has no project: [isFullOpen] labels its
    finding with the tenant id, [matchPolicy] labels its finding with the
    empty string; neither returns an error. *)
Theorem policy_finding_label_on_unknown_tenant :
  let st := Example.start [] in
  findProject "t9" (Projects (chk st)) = None
  /\ isFullOpen (chk st) Example.sg9 [Example.port1] [] []
     = ((true, None),
        set_Attachments (chk st) [openAccessAttachment "t9" Example.sg9 Example.ssh])
  /\ matchPolicy Example.timeLocalString Example.jsonFacts Example.Eval
                 ["a.rego"] Example.sg9 st
     = (Some (true, None),
        {| chk := set_Attachments (chk st)
                    [policyAttachment Example.timeLocalString EmptyString Example.sg9];
           trace := [QueryEval ["a.rego"] Example.sg9] |}).
Proof. cbv zeta. repeat split; vm_compute; reflexivity. Qed.

(** ** The policy evaluator *)

Lemma policyPass_skips_exempt_groups_witness :
  Example.policyRun = (Some None, snd Example.policyRun)
  /\ forall query sg,
       In (QueryEval query sg) (trace (snd Example.policyRun)) ->
       contain ["sg-9"] (groups.ID sg) = false.
Proof.
  assert (E : Example.policyRun = (Some None, snd Example.policyRun))
    by (vm_compute; reflexivity).
  split; [exact E|].
  destruct (policyPass_skips_exempt_groups
              Example.timeLocalString Example.jsonFacts Example.PrepareForEval
              Example.Eval Example.slackPostMessage
              [Example.policyA; Example.policyB] [Example.sg1; Example.sg9] ["sg-9"]
              (Example.start [Example.policyA; Example.policyB])
              (Some None) (snd Example.policyRun) E)
    as [T [A [HT [_ [H _]]]]].
  intros query sg Hin. rewrite HT in Hin. exact (H query sg Hin).
Defined.

Lemma policy_batches_accumulate_witness :
  fst Example.run = Some None
  /\ Attachments (chk (snd Example.run))
     = flat_map (policyFindings Example.timeLocalString Example.Eval [Example.alpha]
                                ["sg-9"] [Example.sg1; Example.sg9])
                ([Example.policyA] ++ [Example.policyB]).
Proof.
  split; [vm_compute; reflexivity|].
  refine (proj2 (policy_batches_accumulate
                   Example.timeLocalString Example.jsonFacts Example.PrepareForEval
                   Example.Eval Example.slackPostMessage
                   ["sg-9"] [Example.port1] [] [Example.sg1; Example.sg9]
                   (Example.start [Example.policyA; Example.policyB])
                   [Example.policyA] Example.policyB [] _ _ _ _)).
  - vm_compute; reflexivity.
  - reflexivity.
  - reflexivity.
  - vm_compute; reflexivity.
Defined.

(** * Further properties of the code *)

(** ** The IP classifier, octet by octet *)

Lemma byte_check (P : Z -> bool) :
  forallb P (map Z.of_nat (seq 0 256)) = true -> forall b, isByte b -> P b = true.
Proof.
  intros H b Hb. apply (range_check P 0 256 H). unfold isByte in Hb. lia.
Qed.

Lemma land_255_byte (a : Z) : isByte a -> Z.land a 255 = a.
Proof.
  intros [H0 H1]. change 255 with (Z.ones 8).
  rewrite Z.land_ones by lia. apply Z.mod_small. change (2 ^ 8) with 256. lia.
Qed.

Lemma second_octet_172 (b : Z) :
  isByte b -> (16 =? Z.land b 240) = ((16 <=? b) && (b <=? 31)).
Proof.
  intros Hb. apply Bool.eqb_prop.
  apply (byte_check (fun b => Bool.eqb (16 =? Z.land b 240) ((16 <=? b) && (b <=? 31))));
    [vm_compute; reflexivity | exact Hb].
Qed.

Lemma isPrivateIP_four_bytes (a b c d : Z) :
  isByte a -> isByte b -> isPrivateIP [a; b; c; d] = (privateV4 a b c d, None).
Proof.
  intros Ha Hb. unfold isPrivateIP. rewrite parseBlocks_privateCIDRs.
  change (net.IsLoopback [a; b; c; d]) with (a =? 127).
  change (net.IsLinkLocalUnicast [a; b; c; d]) with ((a =? 169) && (b =? 254)).
  change (net.IsLinkLocalMulticast [a; b; c; d])
    with ((a =? 224) && (b =? 0) && (c =? 0)).
  assert (E : existsb (fun block => net.Contains block [a; b; c; d])
                [ {| net.IPNet_IP := [10; 0; 0; 0]; net.Mask := [255; 0; 0; 0] |};
                  {| net.IPNet_IP := [172; 16; 0; 0]; net.Mask := [255; 240; 0; 0] |};
                  {| net.IPNet_IP := [192; 168; 0; 0]; net.Mask := [255; 255; 0; 0] |} ]
              = ((a =? 10) || ((a =? 172) && ((16 <=? b) && (b <=? 31)))
                 || ((a =? 192) && (b =? 168)))).
  { cbn -[Z.eqb Z.land Z.leb].
    rewrite !Z.land_0_r, !(land_255_byte a Ha), (land_255_byte b Hb).
    change (Z.land 10 255) with 10. change (Z.land 172 255) with 172.
    change (Z.land 192 255) with 192. change (Z.land 168 255) with 168.
    change (Z.land 16 240) with 16. change (0 =? 0) with true.
    rewrite <- (second_octet_172 b Hb).
    rewrite (Z.eqb_sym a 10), (Z.eqb_sym a 172), (Z.eqb_sym a 192), (Z.eqb_sym b 168).
    destruct (10 =? a), (172 =? a), (16 =? Z.land b 240), (192 =? a), (168 =? b);
      reflexivity. }
  rewrite E. unfold privateV4.
  destruct ((a =? 127) || (a =? 169) && (b =? 254) || (a =? 224) && (b =? 0) && (c =? 0));
    [reflexivity|].
  destruct ((a =? 10) || (a =? 172) && ((16 <=? b) && (b <=? 31)) || (a =? 192) && (b =? 168));
    reflexivity.
Qed.

Lemma isPrivateIP_mapped (a b c d : Z) :
  isPrivateIP (net.IPv4 a b c d) = isPrivateIP [a; b; c; d].
Proof. reflexivity. Qed.

Lemma second_octet_link_local (b : Z) :
  isByte b -> (Z.land b 192 =? 128) = ((128 <=? b) && (b <=? 191)).
Proof.
  intros Hb. apply Bool.eqb_prop.
  apply (byte_check (fun b => Bool.eqb (Z.land b 192 =? 128) ((128 <=? b) && (b <=? 191))));
    [vm_compute; reflexivity | exact Hb].
Qed.

Lemma bytesEqual_eq (x y : list Z) : net.bytesEqual x y = true <-> x = y.
Proof.
  unfold net.bytesEqual. destruct (list_eq_dec Z.eq_dec x y); split; congruence.
Qed.

Lemma isPrivateIP_sixteen_bytes (ip : net.IP) :
  List.length ip = 16%nat -> net.To4 ip = [] ->
  isPrivateIP ip
  = (net.bytesEqual ip net.IPv6loopback
     || (net.byteAt ip 0 =? 254) && (Z.land (net.byteAt ip 1) 192 =? 128)
     || (net.byteAt ip 0 =? 255) && (Z.land (net.byteAt ip 1) 15 =? 2), None).
Proof.
  intros Hl H4. unfold isPrivateIP. rewrite parseBlocks_privateCIDRs.
  unfold net.IsLoopback, net.IsLinkLocalUnicast, net.IsLinkLocalMulticast, net.Equal.
  rewrite H4, Hl.
  change (List.length net.IPv6loopback) with 16%nat.
  change (Nat.eqb 16 16) with true. change (Nat.eqb 16 net.IPv6len) with true.
  cbn [andb].
  assert (E : existsb (fun block => net.Contains block ip)
                [ {| net.IPNet_IP := [10; 0; 0; 0]; net.Mask := [255; 0; 0; 0] |};
                  {| net.IPNet_IP := [172; 16; 0; 0]; net.Mask := [255; 240; 0; 0] |};
                  {| net.IPNet_IP := [192; 168; 0; 0]; net.Mask := [255; 255; 0; 0] |} ]
              = false).
  { cbn [existsb]. unfold net.Contains. rewrite H4.
    cbn -[Z.eqb Z.land List.length]. rewrite Hl. reflexivity. }
  rewrite E.
  destruct (net.bytesEqual ip net.IPv6loopback
            || (net.byteAt ip 0 =? 254) && (Z.land (net.byteAt ip 1) 192 =? 128)
            || (net.byteAt ip 0 =? 255) && (Z.land (net.byteAt ip 1) 15 =? 2));
    reflexivity.
Qed.

(** ** Dotted-decimal text *)

Lemma octetTextOk_byte (a : Z) : isByte a -> octetTextOk a = true.
Proof. apply (byte_check octetTextOk). vm_compute. reflexivity. Qed.

Lemma dtoi_from_app (ds rest : string) : forall n i,
  startsWithDot rest -> net.dtoi_from (ds ++ rest)%string n i = net.dtoi_from ds n i.
Proof.
  induction ds as [|c ds IH]; intros n i Hr.
  - destruct Hr as [-> | [r ->]]; reflexivity.
  - cbn [String.append net.dtoi_from].
    destruct (strings.is_digit c); [|reflexivity].
    destruct (net.big <=? n * 10 + net.digitVal c); [reflexivity|].
    apply IH. exact Hr.
Qed.

Lemma drop_app (ds rest : string) : strings.drop (String.length ds) (ds ++ rest) = rest.
Proof. induction ds as [|c ds IH]; [reflexivity | exact IH]. Qed.

Lemma string_app_nil_r (s : string) : (s ++ EmptyString)%string = s.
Proof. induction s as [|c s IH]; [reflexivity | cbn; rewrite IH; reflexivity]. Qed.

(** One octet read by the loop of [parseIPv4], whatever follows the test of
    the separating dot. *)
Lemma octet_read {A : Type} (a : Z) (rest : string) (F : string -> Z -> option A) :
  isByte a -> startsWithDot rest ->
  (let '(n, c, ok) := net.dtoi (strconv.Itoa a ++ rest) in
   if negb ok || (255 <? n) then None
   else if Nat.ltb 1 c && net.headIs "0" (strconv.Itoa a ++ rest) then None
   else F (strings.drop c (strconv.Itoa a ++ rest)%string) n)
  = F rest a /\ Nat.eqb (String.length (strconv.Itoa a ++ rest)) 0 = false.
Proof.
  intros Ha Hr. pose proof (octetTextOk_byte a Ha) as Ok.
  unfold octetTextOk in Ok. unfold net.dtoi in *.
  rewrite (dtoi_from_app _ rest 0 0%nat Hr).
  destruct (net.dtoi_from (strconv.Itoa a) 0 0) as [[n c] ok].
  repeat (apply Bool.andb_true_iff in Ok; destruct Ok as [Ok ?]).
  apply Z.eqb_eq in H2. apply Nat.eqb_eq in H1. subst n c ok.
  destruct (strconv.Itoa a) as [|x s] eqn:E; [discriminate|].
  split; [|reflexivity].
  assert (Hle : (255 <? a) = false) by (apply Z.ltb_ge; unfold isByte in Ha; lia).
  rewrite Hle. cbn [negb orb].
  change (net.headIs "0" (String x s ++ rest)) with (net.headIs "0" (String x s)).
  apply Bool.negb_true_iff in H. rewrite H.
  rewrite drop_app. reflexivity.
Qed.

Lemma parseIPv4_first_octet (k : nat) (a : Z) (rest : string) (p : list Z) :
  isByte a -> startsWithDot rest ->
  net.parseIPv4_octets (S k) 0 (strconv.Itoa a ++ rest) p
  = net.parseIPv4_octets k 1 rest (p ++ [a]).
Proof.
  intros Ha Hr. cbn [net.parseIPv4_octets].
  destruct (octet_read a rest
              (fun s n => net.parseIPv4_octets k 1 s (p ++ [n])) Ha Hr) as [E N].
  rewrite N. cbn [Nat.eqb orb negb]. exact E.
Qed.

Lemma parseIPv4_next_octet (k i : nat) (a : Z) (rest : string) (p : list Z) :
  isByte a -> startsWithDot rest ->
  net.parseIPv4_octets (S k) (S i) (String "." (strconv.Itoa a ++ rest)) p
  = net.parseIPv4_octets k (S (S i)) rest (p ++ [a]).
Proof.
  intros Ha Hr. cbn [net.parseIPv4_octets].
  destruct (octet_read a rest
              (fun s n => net.parseIPv4_octets k (S (S i)) s (p ++ [n])) Ha Hr) as [E N].
  cbn [String.length Nat.eqb orb negb net.headIs strings.drop].
  change (Ascii.eqb "." ".") with true. cbn [negb]. exact E.
Qed.

Lemma ParseIP_scan_digits (ds rest s : string) :
  digits ds -> net.ParseIP_scan (ds ++ String "." rest) s = net.parseIPv4 s.
Proof.
  unfold digits. induction ds as [|c ds IH]; intros H.
  - reflexivity.
  - cbn [strings.all] in H. apply Bool.andb_true_iff in H. destruct H as [Hc Hd].
    cbn [String.append net.ParseIP_scan].
    destruct (Ascii.eqb_spec c ".") as [-> | _]; [vm_compute in Hc; discriminate|].
    destruct (Ascii.eqb_spec c ":") as [-> | _]; [vm_compute in Hc; discriminate|].
    apply IH. exact Hd.
Qed.

Lemma Itoa_byte_digits (a : Z) : isByte a -> digits (strconv.Itoa a).
Proof.
  intros Ha. pose proof (octetTextOk_byte a Ha) as Ok. unfold octetTextOk in Ok.
  destruct (net.dtoi (strconv.Itoa a)) as [[n c] ok].
  repeat (apply Bool.andb_true_iff in Ok; destruct Ok as [Ok ?]). exact Ok.
Qed.

Lemma ParseIP_dotted (a b c d : Z) :
  isByte a -> isByte b -> isByte c -> isByte d ->
  net.ParseIP (dotted a b c d) = net.IPv4 a b c d.
Proof.
  intros Ha Hb Hc Hd. unfold net.ParseIP, dotted.
  change (strconv.Itoa a ++ "." ++ strconv.Itoa b ++ "." ++ strconv.Itoa c ++ "."
            ++ strconv.Itoa d)%string
    with (strconv.Itoa a
            ++ String "." (strconv.Itoa b
                 ++ String "." (strconv.Itoa c ++ String "." (strconv.Itoa d))))%string.
  rewrite (ParseIP_scan_digits _ _ _ (Itoa_byte_digits a Ha)).
  unfold net.parseIPv4. change net.IPv4len with 4%nat.
  rewrite <- (string_app_nil_r (strconv.Itoa d)).
  rewrite parseIPv4_first_octet by (trivial; right; eexists; reflexivity).
  rewrite parseIPv4_next_octet by (trivial; right; eexists; reflexivity).
  rewrite parseIPv4_next_octet by (trivial; right; eexists; reflexivity).
  rewrite parseIPv4_next_octet by (trivial; left; reflexivity).
  reflexivity.
Qed.

(** ** Port entries with stray text *)

Lemma matchHere_before_dash (a b : string) :
  noDash a ->
  regexp.matchHere (a ++ String "-" b)
  = if strings.all strings.is_digit a
    then Some (a, strings.takeWhile strings.is_digit b)
    else None.
Proof.
  unfold noDash. induction a as [|c a IH]; intros H.
  - reflexivity.
  - cbn [strings.all] in H. apply Bool.andb_true_iff in H. destruct H as [Hc Ha].
    apply Bool.negb_true_iff in Hc.
    cbn [String.append regexp.matchHere strings.all]. rewrite (IH Ha), Hc.
    destruct (strings.is_digit c); [|reflexivity].
    destruct (strings.all strings.is_digit a); reflexivity.
Qed.

Lemma FindStringSubmatch_first_dash (a b : string) :
  noDash a ->
  regexp.FindStringSubmatch (a ++ String "-" b)
  = Some (trailingDigits a, strings.takeWhile strings.is_digit b).
Proof.
  induction a as [|c a IH]; intros H.
  - reflexivity.
  - pose proof (matchHere_before_dash (String c a) b H) as M.
    cbn [String.append] in M. cbn [String.append regexp.FindStringSubmatch].
    rewrite M. cbn [trailingDigits].
    destruct (strings.all strings.is_digit (String c a)); [reflexivity|].
    apply IH. unfold noDash in *. cbn [strings.all] in H.
    apply Bool.andb_true_iff in H. tauto.
Qed.

Lemma matchHere_noDash (s : string) : noDash s -> regexp.matchHere s = None.
Proof.
  unfold noDash. induction s as [|c s IH]; intros H; [reflexivity|].
  cbn [strings.all] in H. apply Bool.andb_true_iff in H. destruct H as [Hc Hs].
  apply Bool.negb_true_iff in Hc.
  cbn [regexp.matchHere]. rewrite (IH Hs), Hc.
  destruct (strings.is_digit c); reflexivity.
Qed.

Lemma FindStringSubmatch_noDash (s : string) :
  noDash s -> regexp.FindStringSubmatch s = None.
Proof.
  induction s as [|c s IH]; intros H; [reflexivity|].
  cbn [regexp.FindStringSubmatch]. rewrite (matchHere_noDash _ H).
  apply IH. unfold noDash in *. cbn [strings.all] in H.
  apply Bool.andb_true_iff in H. tauto.
Qed.

Lemma first_dash (s : string) :
  noDash s \/ exists a b, s = (a ++ String "-" b)%string /\ noDash a.
Proof.
  induction s as [|c s IH].
  - left. reflexivity.
  - destruct (strings.is_dash c) eqn:Hc.
    + right. exists EmptyString, s. split; [|reflexivity].
      unfold strings.is_dash in Hc. apply Ascii.eqb_eq in Hc. subst c. reflexivity.
    + destruct IH as [H | [a [b [-> H]]]].
      * left. unfold noDash in *. cbn [strings.all]. rewrite Hc, H. reflexivity.
      * right. exists (String c a), b. split; [reflexivity|].
        unfold noDash in *. cbn [strings.all]. rewrite Hc, H. reflexivity.
Qed.

Lemma noDash_app_dash (a b : string) : ~ noDash (a ++ String "-" b).
Proof.
  unfold noDash. induction a as [|c a IH]; cbn [String.append strings.all].
  - discriminate.
  - intros H. apply Bool.andb_true_iff in H. tauto.
Qed.

(** ** Composition of allow rules *)

Lemma matchAllowdRule_app (l1 l2 : list Rule) sg rule :
  matchAllowdRule (l1 ++ l2) sg rule
  = matchAllowdRule l1 sg rule || matchAllowdRule l2 sg rule.
Proof.
  induction l1 as [|ar l1 IH]; [reflexivity|].
  cbn [app matchAllowdRule]. rewrite IH.
  destruct (String.eqb (Rule_TenantID ar) (groups.TenantID sg)
            && String.eqb (Rule_SG ar) (groups.Name sg)); [|reflexivity].
  destruct (matchPortRange (Rule_Port ar) rule); [reflexivity|].
  destruct (contains (Rule_Port ar) (strconv.Itoa (rules.PortRangeMin rule))
            && contains (Rule_Port ar) (strconv.Itoa (rules.PortRangeMax rule)));
    reflexivity.
Qed.

Lemma matchAllowdRule_filter (l : list Rule) sg rule :
  matchAllowdRule (filter (entryForb sg) l) sg rule = matchAllowdRule l sg rule.
Proof.
  induction l as [|ar l IH]; [reflexivity|].
  cbn [filter matchAllowdRule]. unfold entryForb at 1.
  destruct (String.eqb (Rule_TenantID ar) (groups.TenantID sg)
            && String.eqb (Rule_SG ar) (groups.Name sg)) eqn:E; [|exact IH].
  cbn [matchAllowdRule]. rewrite E, IH. reflexivity.
Qed.

(** ** Tenant ids of the allow rules *)

Lemma resolveTenantID_fields (ps : list projects.Project) : forall rule,
  Rule_Tenant (resolveTenantID rule ps) = Rule_Tenant rule
  /\ Rule_SG (resolveTenantID rule ps) = Rule_SG rule
  /\ Rule_Port (resolveTenantID rule ps) = Rule_Port rule.
Proof.
  induction ps as [|p ps IH]; intros rule; [auto|].
  cbn [resolveTenantID].
  destruct (IH (if String.eqb (Rule_Tenant rule) (projects.Name p)
                then {| Rule_Tenant := Rule_Tenant rule; Rule_TenantID := projects.ID p;
                        Rule_SG := Rule_SG rule; Rule_Port := Rule_Port rule |}
                else rule)) as [H1 [H2 H3]].
  rewrite H1, H2, H3.
  destruct (String.eqb (Rule_Tenant rule) (projects.Name p)); auto.
Qed.

Lemma find_app {A : Type} (f : A -> bool) (l1 l2 : list A) :
  find f (l1 ++ l2) = match find f l1 with Some x => Some x | None => find f l2 end.
Proof.
  induction l1 as [|x l1 IH]; [reflexivity|].
  cbn [app find]. destruct (f x); [reflexivity | exact IH].
Qed.

Lemma resolveTenantID_last (ps : list projects.Project) : forall rule,
  Rule_TenantID (resolveTenantID rule ps)
  = match lastProjectNamed (Rule_Tenant rule) ps with
    | Some p => projects.ID p
    | None => Rule_TenantID rule
    end.
Proof.
  unfold lastProjectNamed.
  induction ps as [|p ps IH]; intros rule; [reflexivity|].
  cbn [resolveTenantID rev]. rewrite IH, find_app. cbn [find].
  destruct (String.eqb (Rule_Tenant rule) (projects.Name p)) eqn:E;
    cbn [Rule_Tenant Rule_TenantID]; rewrite ?E;
    destruct (find _ (rev ps)); reflexivity.
Qed.

(** ** Notifications and the policy pass, when calls fail *)

Section FailureProperties.

Variable timeLocalString : Z -> string.
Variable jsonFacts : groups.SecGroup -> option error.
Variable PrepareForEval : list string -> option error.
Variable Eval : list string -> groups.SecGroup -> error + list value.
Variable slackPostMessage :
  list event -> string -> string -> list slack.Attachment
  -> slack.PostMessageParameters -> option error.

Local Abbreviation matchPolicy' := (matchPolicy timeLocalString jsonFacts Eval).
Local Abbreviation policyGroups' := (policyGroups timeLocalString jsonFacts Eval).
Local Abbreviation postWarning' := (postWarning slackPostMessage).
Local Abbreviation policyPass' :=
  (policyPass timeLocalString jsonFacts PrepareForEval Eval slackPostMessage).
Local Abbreviation evaluate' :=
  (evaluate timeLocalString jsonFacts PrepareForEval Eval slackPostMessage).

Lemma postItems_failure channel params items : forall st err st',
  postItems slackPostMessage channel items params st = (Some err, st') ->
  exists cause T item,
    err = Wrapf cause "Failed to post attachments"
    /\ trace st' = trace st ++ T ++ [PostMessage channel EmptyString [item] params]
    /\ slackPostMessage (trace st ++ T) channel EmptyString [item] params = Some cause.
Proof.
  induction items as [|item rest IH]; intros st err st' E; [discriminate|].
  cbn [postItems postMessage] in E.
  destruct (slackPostMessage (trace st) channel EmptyString [item] params)
    as [cause|] eqn:C.
  - injection E as <- <-. exists cause, [], item.
    rewrite app_nil_r. cbn. auto.
  - apply IH in E. destruct E as [cause [T [item' [-> [HT HC]]]]].
    cbn [record trace] in HT, HC. rewrite <- app_assoc in HT, HC.
    exists cause, (PostMessage channel EmptyString [item] params :: T), item'. auto.
Qed.

Lemma matchPolicy_success query sg st b st' :
  matchPolicy' query sg st = (Some (b, None), st') ->
  jsonFacts sg = None
  /\ exists rs, Eval query sg = inr rs
                /\ (rs = [] \/ exists v rs', rs = VBool v :: rs').
Proof.
  unfold matchPolicy.
  destruct (jsonFacts sg) as [e|]; [discriminate|].
  destruct (Eval query sg) as [e | [|[v|] rs']]; try discriminate; intros _.
  - split; [reflexivity|]. exists []. auto.
  - split; [reflexivity|]. exists (VBool v :: rs'). split; [reflexivity|].
    right. exists v, rs'. reflexivity.
Qed.

Lemma policyGroups_success query allowed_sg sgs : forall b st b' st',
  policyGroups' query sgs allowed_sg b st = (Some (b', None), st') ->
  forall sg, In sg (nonExempt allowed_sg sgs) ->
    jsonFacts sg = None
    /\ exists rs, Eval query sg = inr rs
                  /\ (rs = [] \/ exists v rs', rs = VBool v :: rs').
Proof.
  induction sgs as [|sg0 rest IH]; intros b st b' st' E sg Hin; [destruct Hin|].
  cbn [policyGroups] in E. unfold nonExempt in Hin. cbn [filter] in Hin.
  destruct (contain allowed_sg (groups.ID sg0)); cbn [negb] in Hin.
  - exact (IH _ _ _ _ E sg Hin).
  - destruct (matchPolicy' query sg0 st) as [[[m [e|]]|] st1] eqn:M; try discriminate.
    destruct Hin as [<- | Hin].
    + exact (matchPolicy_success _ _ _ _ _ M).
    + exact (IH _ _ _ _ E sg Hin).
Qed.

Lemma expectedPolicyTrace_dry_run cfg projs allowed_sg sgs policies : forall acc ev,
  Cfg_DryRun cfg = true ->
  In ev (expectedPolicyTrace timeLocalString Eval cfg projs allowed_sg sgs policies acc) ->
  isQuery ev = true.
Proof.
  induction policies as [|policy rest IH]; intros acc ev D Hin; [destruct Hin|].
  cbn [expectedPolicyTrace] in Hin. unfold policyBatch in Hin.
  rewrite D, Bool.andb_false_r in Hin. cbn [app] in Hin.
  apply in_app_or in Hin. destruct Hin as [Hin | Hin].
  - unfold policyQueries in Hin. apply in_map_iff in Hin.
    destruct Hin as [sg [<- _]]. reflexivity.
  - exact (IH _ _ D Hin).
Qed.

Lemma evaluate_dry_run allowed_sg ps fips sgs st :
  Cfg_DryRun (Cfg (chk st)) = true ->
  forall ev, In ev (trace (snd (evaluate' allowed_sg ps fips sgs st))) ->
             In ev (trace st) \/ isQuery ev = true.
Proof.
  intros D ev. unfold evaluate.
  pose proof (openAccessPass_spec sgs (chk st) ps fips allowed_sg false) as O.
  cbv zeta in O. destruct O as [O1 [O2 [O3 _]]].
  destruct (openAccessPass (chk st) sgs ps fips allowed_sg false) as [[ex e] checker'].
  cbn [fst snd] in *. injection O1 as -> ->.
  rewrite O2, D, Bool.andb_false_r. cbn [chk trace set_Attachments Cfg].
  rewrite O2.
  pose proof (policyPass_spec timeLocalString jsonFacts PrepareForEval Eval slackPostMessage
                allowed_sg sgs (Cfg_Policies (Cfg (chk st)))
                {| chk := set_Attachments checker' []; trace := trace st |}) as P.
  cbv zeta in P. cbn [chk trace set_Attachments Cfg Projects Attachments] in P.
  rewrite O2 in P. destruct P as [_ [_ [T [A [HT [HP _]]]]]].
  rewrite HT. intros Hin. apply in_app_or in Hin.
  destruct Hin as [Hin | Hin]; [left; exact Hin | right].
  apply (isPrefix_In _ _ _ HP) in Hin.
  exact (expectedPolicyTrace_dry_run _ _ _ _ _ _ _ D Hin).
Qed.

End FailureProperties.

Section FurtherResults.

Variable timeLocalString : Z -> string.
Variable jsonFacts : groups.SecGroup -> option error.
Variable PrepareForEval : list string -> option error.
Variable Eval : list string -> groups.SecGroup -> error + list value.
Variable slackPostMessage :
  list event -> string -> string -> list slack.Attachment
  -> slack.PostMessageParameters -> option error.
Variable redisLLen : error + Z.
Variable redisLRange : Z -> error + list string.
Variable authenticate : option error.
Variable fetchProjects : error + list projects.Project.
Variable fetchPorts : error + list ports.Port.
Variable fetchFloatingIPS : error + list floatingips.FloatingIP.
Variable fetchSecurityGroups : error + list groups.SecGroup.

Local Abbreviation postWarning' := (postWarning slackPostMessage).
Local Abbreviation policyPass' :=
  (policyPass timeLocalString jsonFacts PrepareForEval Eval slackPostMessage).
Local Abbreviation Run' :=
  (Run timeLocalString jsonFacts PrepareForEval Eval slackPostMessage
       redisLLen redisLRange authenticate fetchProjects fetchPorts
       fetchFloatingIPS fetchSecurityGroups).

(** X9. [postWarning] never changes the checker.  When it returns nil it has
    posted the prefix, every attachment in a message of its own and in
    order, and the suffix, and nothing else.  When it returns an error, the
    last message it tried is the one the chat service refused, no message
    follows it, and the error is that of the chat service wrapped with the
    name of the step. *)
Theorem postWarning_fail_fast attachments prefix suffix st res st' :
  postWarning' attachments prefix suffix st = (res, st') ->
  chk st' = chk st
  /\ match res with
     | None =>
         trace st' = trace st ++ batch (Cfg (chk st)) attachments prefix suffix
         /\ List.length (trace st')
            = (List.length (trace st) + List.length attachments + 2)%nat
     | Some err =>
         exists cause context T channel text atts params,
           err = Wrapf cause context
           /\ In context ["Failed to post prefix message";
                          "Failed to post attachments";
                          "Failed to post suffix message"]
           /\ trace st' = trace st ++ T ++ [PostMessage channel text atts params]
           /\ isPrefix (T ++ [PostMessage channel text atts params])
                       (batch (Cfg (chk st)) attachments prefix suffix)
           /\ slackPostMessage (trace st ++ T) channel text atts params = Some cause
     end.
Proof.
  intros E.
  pose proof (postWarning_spec slackPostMessage attachments prefix suffix st) as S.
  cbv zeta in S. rewrite E in S. cbn [fst snd] in S.
  destruct S as [SC [T0 [ST [SP SS]]]].
  split; [exact SC|].
  destruct res as [err|].
  - assert (K : exists cause context T channel text atts params,
               err = Wrapf cause context
               /\ In context ["Failed to post prefix message";
                              "Failed to post attachments";
                              "Failed to post suffix message"]
               /\ trace st' = trace st ++ T ++ [PostMessage channel text atts params]
               /\ slackPostMessage (trace st ++ T) channel text atts params = Some cause).
    { unfold postWarning in E. cbn [postMessage] in E.
      set (params := {| slack.Username := Cfg_Username (Cfg (chk st));
                        slack.IconEmoji := Cfg_IconEmoji (Cfg (chk st)) |}) in *.
      set (channel := Cfg_SlackChannel (Cfg (chk st))) in *.
      destruct (slackPostMessage (trace st) channel prefix [] params) as [c|] eqn:C1.
      - injection E as <- <-.
        exists c, "Failed to post prefix message", [], channel, prefix, [], params.
        rewrite app_nil_r. cbn. auto.
      - destruct (postItems slackPostMessage channel attachments params
                    (record (PostMessage channel prefix [] params) st))
          as [[e|] st2] eqn:I.
        + injection E as <- <-.
          destruct (postItems_failure _ _ _ _ _ _ _ I) as [c [T [item [-> [HT HC]]]]].
          cbn [record trace] in HT, HC. rewrite <- app_assoc in HT, HC.
          exists c, "Failed to post attachments",
                 (PostMessage channel prefix [] params :: T),
                 channel, EmptyString, [item], params.
          cbn [In]. auto 6.
        + pose proof (postItems_spec slackPostMessage channel params attachments
                        (record (PostMessage channel prefix [] params) st)) as J.
          cbv zeta in J. rewrite I in J. cbn [fst snd record trace] in J.
          destruct J as [_ [T [HT [_ HS]]]]. rewrite (HS eq_refl) in HT.
          destruct (slackPostMessage (trace st2) channel suffix [] params)
            as [c|] eqn:C3; [injection E as <- <- | discriminate].
          exists c, "Failed to post suffix message",
                 (PostMessage channel prefix [] params
                  :: map (fun item => PostMessage channel EmptyString [item] params)
                         attachments),
                 channel, suffix, [], params.
          cbn [record trace In]. rewrite HT in *. rewrite <- !app_assoc in *.
          cbn [app] in *. auto 6. }
    destruct K as [c [ctx [T [ch [text [atts [params [K1 [K2 [K3 K4]]]]]]]]]].
    exists c, ctx, T, ch, text, atts, params.
    repeat (split; [assumption|]). split; [|exact K4].
    rewrite K3 in ST. apply app_inv_head in ST. rewrite ST. exact SP.
  - rewrite (SS eq_refl) in ST. split; [exact ST|].
    rewrite ST, length_app. unfold batch. cbn [app List.length].
    rewrite length_app, length_map. cbn [List.length]. lia.
Qed.

(** X12. The policy pass returns nil only if every policy was prepared without
    error and, for every policy and every group outside the dynamic
    allow-list, the facts of the group were built and the query was
    evaluated to no result or to a first result that binds a boolean. *)
Theorem policyPass_success_means_all_succeeded policies sgs allowed_sg st st' :
  policyPass' policies sgs allowed_sg st = (Some None, st') ->
  forall policy, In policy policies ->
    PrepareForEval (policyPaths policy) = None
    /\ forall sg, In sg (nonExempt allowed_sg sgs) ->
         jsonFacts sg = None
         /\ exists rs, Eval (policyPaths policy) sg = inr rs
                       /\ (rs = [] \/ exists v rs', rs = VBool v :: rs').
Proof.
  revert st st'.
  induction policies as [|p rest IH]; intros st st' E policy Hin; [destruct Hin|].
  cbn [policyPass] in E.
  destruct (PrepareForEval (policyPaths p)) as [e|] eqn:Pr; [discriminate|].
  destruct (policyGroups timeLocalString jsonFacts Eval (policyPaths p) sgs allowed_sg
                         false st) as [[[ex [e|]]|] st1] eqn:G; try discriminate.
  assert (R : exists st2, policyPass' rest sgs allowed_sg st2 = (Some None, st')).
  { destruct (ex && negb (Cfg_DryRun (Cfg (chk st1)))).
    - destruct (postWarning' (Attachments (chk st1)) (Policy_PrefixMessage p)
                             (Policy_SuffixMessage p) st1) as [[e|] st2];
        [discriminate | exists st2; exact E].
    - exists st1. exact E. }
  destruct R as [st2 R].
  destruct Hin as [<- | Hin].
  - split; [exact Pr|].
    exact (policyGroups_success timeLocalString jsonFacts Eval _ _ _ _ _ _ _ G).
  - exact (IH _ _ R policy Hin).
Qed.

(** X10. In a dry run, [Run] asks nothing of the chat service, however the
    inventory steps and the evaluation turn out: every call it records is a
    query to the policy engine. *)
Theorem Run_dry_run_posts_nothing checker :
  Cfg_DryRun (Cfg checker) = true ->
  forall ev, In ev (trace (snd (Run' checker))) -> isQuery ev = true.
Proof.
  intros D ev. unfold Run.
  destruct redisLLen as [e|len]; [intros []|].
  destruct (redisLRange len) as [e|allowed_sg]; [intros []|].
  destruct authenticate as [e|]; [intros []|].
  destruct fetchProjects as [e|projs]; [intros []|].
  destruct fetchPorts as [e|ps]; [intros []|].
  destruct fetchFloatingIPS as [e|fips]; [intros []|].
  destruct fetchSecurityGroups as [e|sgs]; [intros []|].
  intros Hin.
  apply (evaluate_dry_run timeLocalString jsonFacts PrepareForEval Eval slackPostMessage)
    in Hin; [destruct Hin as [[] | H]; exact H | exact D].
Qed.

End FurtherResults.

(** X1. On an IPv4 address, in either of its two forms, the classifier
    answers private exactly for 127.0.0.0/8, 169.254.0.0/16, 224.0.0.0/24,
    10.0.0.0/8, 172.16.0.0/12 and 192.168.0.0/16, and public for every other
    address; it returns no error. *)
Theorem isPrivateIP_IPv4_exact (ip : net.IP) (a b c d : Z) :
  isByte a -> isByte b -> isIPv4 ip a b c d ->
  isPrivateIP ip = (privateV4 a b c d, None).
Proof.
  intros Ha Hb [-> | ->]; [|rewrite isPrivateIP_mapped];
    apply isPrivateIP_four_bytes; assumption.
Qed.

Lemma isPrivateIP_IPv4_exact_witness :
  isByte 172 /\ isByte 32 /\ isIPv4 (net.ParseIP "172.32.0.1") 172 32 0 1
  /\ isPrivateIP (net.ParseIP "172.32.0.1") = (false, None).
Proof.
  assert (Ha : isByte 172) by (unfold isByte; lia).
  assert (Hb : isByte 32) by (unfold isByte; lia).
  assert (Hi : isIPv4 (net.ParseIP "172.32.0.1") 172 32 0 1) by (right; reflexivity).
  repeat (split; [assumption|]).
  exact (isPrivateIP_IPv4_exact _ 172 32 0 1 Ha Hb Hi).
Defined.

(** X2. On a sixteen-byte address that is not an IPv4-in-IPv6 address, the
    three private ranges never apply: the classifier answers private exactly
    for [::1], for fe80::/10 and for the multicast addresses of link-local
    scope.  So the unique local addresses fc00::/7 are classified public. *)
Theorem isPrivateIP_IPv6_exact (ip : net.IP) :
  List.length ip = 16%nat -> net.To4 ip = [] -> isByte (net.byteAt ip 1) ->
  snd (isPrivateIP ip) = None
  /\ (fst (isPrivateIP ip) = true <->
      ip = net.IPv6loopback
      \/ (net.byteAt ip 0 = 254 /\ 128 <= net.byteAt ip 1 <= 191)
      \/ (net.byteAt ip 0 = 255 /\ net.byteAt ip 1 mod 16 = 2))
  /\ (net.byteAt ip 0 = 252 \/ net.byteAt ip 0 = 253 ->
      isPrivateIP ip = (false, None)).
Proof.
  intros Hl H4 Hb.
  rewrite (isPrivateIP_sixteen_bytes ip Hl H4). cbn [fst snd].
  rewrite (second_octet_link_local _ Hb), (land_15_mod _ (proj1 Hb)).
  split; [reflexivity|]. split.
  - rewrite !Bool.orb_true_iff, !Bool.andb_true_iff, bytesEqual_eq,
      !Z.eqb_eq, !Z.leb_le. tauto.
  - intros H0.
    assert (E1 : net.bytesEqual ip net.IPv6loopback = false).
    { destruct (net.bytesEqual ip net.IPv6loopback) eqn:E; [|reflexivity].
      apply bytesEqual_eq in E. subst ip. cbn in H0. lia. }
    assert (E2 : (net.byteAt ip 0 =? 254) = false) by (apply Z.eqb_neq; lia).
    assert (E3 : (net.byteAt ip 0 =? 255) = false) by (apply Z.eqb_neq; lia).
    rewrite E1, E2, E3. reflexivity.
Qed.

Lemma isPrivateIP_IPv6_exact_witness :
  List.length (net.ParseIP "fd00::1") = 16%nat
  /\ net.To4 (net.ParseIP "fd00::1") = []
  /\ isPrivateIP (net.ParseIP "fd00::1") = (false, None).
Proof.
  split; [reflexivity|]. split; [reflexivity|].
  refine (proj2 (proj2 (isPrivateIP_IPv6_exact (net.ParseIP "fd00::1") _ _ _)) _).
  - reflexivity.
  - reflexivity.
  - vm_compute. split; [discriminate | reflexivity].
  - right. reflexivity.
Defined.

(** X3. The dotted-decimal text of four bytes parses to the IPv4 address of
    those bytes, and the exposure check classifies a fixed address written
    that way by its octets. *)
Theorem ParseIP_dotted_decimal (a b c d : Z) :
  isByte a -> isByte b -> isByte c -> isByte d ->
  net.ParseIP (dotted a b c d) = net.IPv4 a b c d
  /\ isPrivateIP (net.ParseIP (dotted a b c d)) = (privateV4 a b c d, None).
Proof.
  intros Ha Hb Hc Hd.
  rewrite (ParseIP_dotted a b c d Ha Hb Hc Hd). split; [reflexivity|].
  rewrite isPrivateIP_mapped. apply isPrivateIP_four_bytes; assumption.
Qed.

Lemma ParseIP_dotted_decimal_witness :
  (isByte 203 /\ isByte 0 /\ isByte 113 /\ isByte 5)
  /\ net.ParseIP "203.0.113.5" = net.IPv4 203 0 113 5
  /\ isPrivateIP (net.ParseIP "203.0.113.5") = (false, None).
Proof.
  assert (H : isByte 203 /\ isByte 0 /\ isByte 113 /\ isByte 5)
    by (unfold isByte; lia).
  split; [exact H|].
  destruct H as [Ha [Hb [Hc Hd]]].
  exact (ParseIP_dotted_decimal 203 0 113 5 Ha Hb Hc Hd).
Defined.

(** X4. The pattern of the matcher is found in a text exactly when the text
    has a [-].  Only the first [-] of a port entry counts: the entry allows a
    rule by range exactly when the digits that end the text before that [-]
    are the decimal text of the lower bound and the digits that start the
    text after it are that of the upper bound; whatever else the entry
    holds is ignored. *)
Theorem matchPortRange_first_dash :
  (forall s, regexp.MatchString s = true <-> exists a b, s = (a ++ String "-" b)%string)
  /\ forall Port rule,
       matchPortRange Port rule = true <->
       exists a b,
         In (a ++ String "-" b)%string Port /\ noDash a
         /\ trailingDigits a = strconv.Itoa (rules.PortRangeMin rule)
         /\ strings.takeWhile strings.is_digit b = strconv.Itoa (rules.PortRangeMax rule).
Proof.
  split.
  - intros s. unfold regexp.MatchString. split.
    + intros H. destruct (first_dash s) as [N | [a [b [-> _]]]].
      * rewrite (FindStringSubmatch_noDash s N) in H. discriminate.
      * exists a, b. reflexivity.
    + intros [a [b ->]].
      destruct (first_dash (a ++ String "-" b)) as [N | [a' [b' [-> N]]]].
      * exfalso. exact (noDash_app_dash a b N).
      * rewrite (FindStringSubmatch_first_dash a' b' N). reflexivity.
  - intros Port rule. rewrite matchPortRange_spec. split.
    + intros [port [Hin H]].
      destruct (first_dash port) as [N | [a [b [-> N]]]].
      * rewrite (FindStringSubmatch_noDash port N) in H. discriminate.
      * rewrite (FindStringSubmatch_first_dash a b N) in H. injection H as H1 H2.
        exists a, b. auto.
    + intros [a [b [Hin [N [H1 H2]]]]]. eexists. split; [exact Hin|].
      rewrite (FindStringSubmatch_first_dash a b N), H1, H2. reflexivity.
Qed.

(** X5. What a list of allow rules allows is the union of what its parts
    allow: the order of the entries does not matter, and the entries of
    other tenants or of groups of another name have no effect. *)
Theorem matchAllowdRule_composes (l1 l2 : list Rule) sg rule :
  matchAllowdRule (l1 ++ l2) sg rule
  = matchAllowdRule l1 sg rule || matchAllowdRule l2 sg rule
  /\ matchAllowdRule (l2 ++ l1) sg rule = matchAllowdRule (l1 ++ l2) sg rule
  /\ matchAllowdRule (filter (entryForb sg) l1) sg rule = matchAllowdRule l1 sg rule.
Proof.
  split; [apply matchAllowdRule_app|].
  split; [rewrite !matchAllowdRule_app; apply Bool.orb_comm|].
  apply matchAllowdRule_filter.
Qed.

(** X6. The loop of [Run] that resolves tenant names leaves the tenant name,
    the group name and the ports of an allow rule as they are, and sets its
    tenant id to the id of the last project of that name; with no project of
    that name, the configured tenant id stays. *)
Theorem resolveTenantID_spec (rule : Rule) (ps : list projects.Project) :
  Rule_Tenant (resolveTenantID rule ps) = Rule_Tenant rule
  /\ Rule_SG (resolveTenantID rule ps) = Rule_SG rule
  /\ Rule_Port (resolveTenantID rule ps) = Rule_Port rule
  /\ Rule_TenantID (resolveTenantID rule ps)
     = match lastProjectNamed (Rule_Tenant rule) ps with
       | Some p => projects.ID p
       | None => Rule_TenantID rule
       end.
Proof.
  destruct (resolveTenantID_fields ps rule) as [H1 [H2 H3]].
  repeat (split; [assumption|]). apply resolveTenantID_last.
Qed.

(** X7. [getProjectNameFromID] returns the name of the first project with the
    id, whatever follows it in the list, and no error; on a list with no
    project of that id it returns the empty name and the error
    "Not found project: " followed by the id. *)
Theorem getProjectNameFromID_first_match
        (id : string) (pre : list projects.Project) (p : projects.Project)
        (post : list projects.Project) :
  (forall q, In q pre -> projects.ID q <> id) -> projects.ID p = id ->
  getProjectNameFromID id (pre ++ p :: post) = (projects.Name p, None)
  /\ getProjectNameFromID id pre
     = (EmptyString, Some (ErrorString ("Not found project: " ++ id)%string)).
Proof.
  intros Hpre Hp. split.
  - induction pre as [|q pre IH]; cbn [app getProjectNameFromID].
    + rewrite Hp, String.eqb_refl. reflexivity.
    + destruct (String.eqb_spec (projects.ID q) id) as [E | _].
      * exfalso. exact (Hpre q (or_introl eq_refl) E).
      * apply IH. intros q' Hin. apply Hpre. right. exact Hin.
  - rewrite getProjectNameFromID_find.
    apply findProject_None in Hpre. rewrite Hpre. reflexivity.
Qed.

Lemma getProjectNameFromID_first_match_witness :
  (forall q, In q [Example.alpha] -> projects.ID q <> "t9")
  /\ getProjectNameFromID "t9"
       ([Example.alpha] ++ {| projects.ID := "t9"; projects.Name := "Beta" |}
          :: [{| projects.ID := "t9"; projects.Name := "Gamma" |}])
     = ("Beta", None)
  /\ getProjectNameFromID "t9" [Example.alpha]
     = (EmptyString, Some (ErrorString "Not found project: t9")).
Proof.
  assert (H : forall q, In q [Example.alpha] -> projects.ID q <> "t9").
  { intros q [<- | []]. discriminate. }
  split; [exact H|].
  exact (getProjectNameFromID_first_match "t9" [Example.alpha]
           {| projects.ID := "t9"; projects.Name := "Beta" |}
           [{| projects.ID := "t9"; projects.Name := "Gamma" |}] H eq_refl).
Defined.

(** X8. Exposure only grows with the inventory: a group that is exposed stays
    exposed when ports or floating IPs are added, and the order in which
    they are listed does not matter. *)
Theorem isExposed_monotone sg ps ps' fips fips' :
  incl ps ps' -> incl fips fips' ->
  isExposed sg ps fips = true -> isExposed sg ps' fips' = true.
Proof.
  unfold isExposed. intros Hp Hf H.
  assert (E : scanPorts ps sg fips = BreakIGNOREPORT).
  { destruct (scanPorts ps sg fips); congruence. }
  apply scanPorts_exposed_iff in E.
  destruct E as [port [Hin [Hsg Hr]]].
  assert (E' : scanPorts ps' sg fips' = BreakIGNOREPORT).
  { apply scanPorts_exposed_iff. exists port.
    split; [apply Hp; exact Hin|]. split; [exact Hsg|].
    destruct Hr as [[fip [Hfip Heq]] | Hr]; [left | right; exact Hr].
    exists fip. split; [apply Hf; exact Hfip | exact Heq]. }
  rewrite E'. reflexivity.
Qed.

Lemma isExposed_monotone_witness :
  incl [Example.port1] [Example.portBogus; Example.port1]
  /\ incl (@nil floatingips.FloatingIP) [{| floatingips.ID := "f1"; floatingips.PortID := "p7" |}]
  /\ isExposed Example.sg9 [Example.port1] [] = true
  /\ isExposed Example.sg9 [Example.portBogus; Example.port1]
               [{| floatingips.ID := "f1"; floatingips.PortID := "p7" |}] = true.
Proof.
  assert (H1 : incl [Example.port1] [Example.portBogus; Example.port1]).
  { intros x [<- | []]. right. left. reflexivity. }
  assert (H2 : incl (@nil floatingips.FloatingIP)
                    [{| floatingips.ID := "f1"; floatingips.PortID := "p7" |}]).
  { intros x []. }
  split; [exact H1|]. split; [exact H2|]. split; [reflexivity|].
  exact (isExposed_monotone Example.sg9 _ _ _ _ H1 H2 eq_refl).
Defined.

(** X11. The open-access pass over the whole inventory never returns an
    error, leaves the configuration and the projects of the checker as they
    are, and returns [true] exactly when it has added at least one finding. *)
Theorem openAccessPass_flag checker sgs ps fips allowed_sg :
  let r := openAccessPass checker sgs ps fips allowed_sg false in
  snd (fst r) = None
  /\ Cfg (snd r) = Cfg checker
  /\ Projects (snd r) = Projects checker
  /\ (fst (fst r) = true <->
      (List.length (Attachments checker) < List.length (Attachments (snd r)))%nat).
Proof.
  cbv zeta.
  destruct (openAccessPass_spec sgs checker ps fips allowed_sg false)
    as [H1 [H2 [H3 H4]]].
  rewrite H1, H2, H3, H4, length_app. cbn [fst snd orb].
  repeat (split; [reflexivity|]).
  destruct (passFindings (Cfg_Rules (Cfg checker)) (Projects checker)
                         allowed_sg ps fips sgs); cbn [nonEmpty List.length];
    split; intros H; try reflexivity; try discriminate; lia.
Qed.

(** ** Examples for the results on failing calls *)

Lemma postWarning_fail_fast_witness :
  postWarning Example.slackPostMessage [] "p" "s" (Example.start [])
  = (None, snd (postWarning Example.slackPostMessage [] "p" "s" (Example.start [])))
  /\ List.length (trace (snd (postWarning Example.slackPostMessage [] "p" "s"
                                          (Example.start [])))) = 2%nat.
Proof.
  assert (E : postWarning Example.slackPostMessage [] "p" "s" (Example.start [])
              = (None, snd (postWarning Example.slackPostMessage [] "p" "s"
                                        (Example.start [])))) by reflexivity.
  split; [exact E|].
  exact (proj2 (proj2 (postWarning_fail_fast Example.slackPostMessage [] "p" "s"
                         (Example.start []) None _ E))).
Defined.

Lemma policyPass_success_means_all_succeeded_witness :
  Example.policyRun = (Some None, snd Example.policyRun)
  /\ Example.jsonFacts Example.sg1 = None.
Proof.
  assert (E : Example.policyRun = (Some None, snd Example.policyRun))
    by (vm_compute; reflexivity).
  split; [exact E|].
  refine (proj1 (proj2 (policyPass_success_means_all_succeeded
                          Example.timeLocalString Example.jsonFacts Example.PrepareForEval
                          Example.Eval Example.slackPostMessage
                          [Example.policyA; Example.policyB] [Example.sg1; Example.sg9]
                          ["sg-9"] (Example.start [Example.policyA; Example.policyB])
                          (snd Example.policyRun) E Example.policyA _) Example.sg1 _)).
  - left. reflexivity.
  - left. reflexivity.
Defined.

Lemma Run_dry_run_posts_nothing_witness :
  Cfg_DryRun (Cfg Example.dryChecker) = true
  /\ forall ev, In ev (trace (snd Example.dryRun)) -> isQuery ev = true.
Proof.
  split; [reflexivity|].
  exact (Run_dry_run_posts_nothing
           Example.timeLocalString Example.jsonFacts Example.PrepareForEval
           Example.Eval Example.slackPostMessage
           (inr 1) (fun _ => inr ["sg-9"]) None (inr [Example.alpha])
           (inr [Example.port1; Example.portBogus]) (inr []) (inr [Example.sg1; Example.sg9])
           Example.dryChecker eq_refl).
Defined.

(** ** Bounds as numbers *)

Lemma Itoa_parses (z : Z) :
  NilZero.int_of_string (strconv.Itoa z) = Some (Z.to_int z).
Proof.
  unfold strconv.Itoa. apply NilZero.isi; destruct z; cbn; try discriminate;
    intros [= H]; exact (Unsigned.to_uint_nonnil _ H).
Qed.

Lemma Itoa_inj (x y : Z) : strconv.Itoa x = strconv.Itoa y -> x = y.
Proof.
  intros H. apply DecimalZ.to_int_inj.
  pose proof (Itoa_parses x) as Hx. rewrite H, Itoa_parses in Hx. congruence.
Qed.

Lemma string_of_uint_digits (d : Decimal.uint) :
  digits (NilEmpty.string_of_uint d).
Proof. unfold digits. induction d; cbn; auto. Qed.

Lemma Itoa_nonneg_digits (z : Z) : 0 <= z -> digits (strconv.Itoa z).
Proof.
  intros Hz. unfold strconv.Itoa. destruct z as [|p|p]; [reflexivity| |lia].
  cbn [Z.to_int NilZero.string_of_int]. unfold NilZero.string_of_uint.
  destruct (Pos.to_uint p); try apply string_of_uint_digits.
  reflexivity.
Qed.

Lemma Itoa_not_range (z lo hi : Z) : 0 <= lo -> strconv.Itoa z <> rangeText lo hi.
Proof.
  intros Hlo E. unfold rangeText in E.
  destruct (Z.leb_spec 0 z) as [Hz | Hz].
  - apply (digits_app_dash (strconv.Itoa lo) (strconv.Itoa hi)).
    unfold dash. rewrite <- E. apply Itoa_nonneg_digits. exact Hz.
  - pose proof (Itoa_nonneg_digits lo Hlo) as D.
    pose proof (Itoa_parses lo) as P.
    destruct z as [|p|p]; try lia. unfold strconv.Itoa at 1 in E. cbn in E.
    destruct (strconv.Itoa lo) as [|c s]; [discriminate P|].
    cbn in E. injection E as <- _.
    unfold digits in D. cbn in D. discriminate.
Qed.

Lemma In_map_Itoa (z : Z) (qs : list Z) :
  In (strconv.Itoa z) (map strconv.Itoa qs) <-> In z qs.
Proof.
  rewrite in_map_iff. split.
  - intros [q [E Hin]]. apply Itoa_inj in E. subst q. exact Hin.
  - intros Hin. exists z. auto.
Qed.

Lemma matchPortRange_literals (qs : list Z) rule :
  (forall q, In q qs -> 0 <= q) -> matchPortRange (map strconv.Itoa qs) rule = false.
Proof.
  intros Hq. destruct (matchPortRange (map strconv.Itoa qs) rule) eqn:E; [|reflexivity].
  apply matchPortRange_spec in E. destruct E as [port [Hin H]].
  apply in_map_iff in Hin. destruct Hin as [q [<- Hin]].
  rewrite (FindStringSubmatch_digits _ (Itoa_nonneg_digits q (Hq q Hin))) in H.
  discriminate.
Qed.

(** X13. An entry for the group whose only port is the range expression of
    two bounds allows exactly the rules with those two bounds: a rule that
    the range contains or overlaps is not allowed. *)
Theorem matchAllowdRule_range_exact allowdRule sg rule (lo hi : Z) :
  entryFor allowdRule sg -> Rule_Port allowdRule = [rangeText lo hi] ->
  0 <= lo -> 0 <= hi ->
  (matchAllowdRule [allowdRule] sg rule = true <->
   rules.PortRangeMin rule = lo /\ rules.PortRangeMax rule = hi).
Proof.
  intros [Ht Hs] HP Hlo Hhi. cbn [matchAllowdRule].
  rewrite Ht, Hs, !String.eqb_refl, HP. cbn [andb matchPortRange contains].
  unfold rangeText at 1 2. fold dash.
  rewrite (FindStringSubmatch_range _ _ (Itoa_nonneg_digits lo Hlo)
                                   (Itoa_nonneg_digits hi Hhi)).
  unfold regexp.MatchString.
  rewrite (FindStringSubmatch_range _ _ (Itoa_nonneg_digits lo Hlo)
                                   (Itoa_nonneg_digits hi Hhi)).
  destruct (String.eqb_spec (rangeText lo hi) (strconv.Itoa (rules.PortRangeMin rule)))
    as [E | _]; [exfalso; exact (Itoa_not_range _ lo hi Hlo (eq_sym E))|].
  cbn [andb].
  destruct (String.eqb_spec (strconv.Itoa lo) (strconv.Itoa (rules.PortRangeMin rule)))
    as [E1 | N1];
    [destruct (String.eqb_spec (strconv.Itoa hi) (strconv.Itoa (rules.PortRangeMax rule)))
       as [E2 | N2]|]; cbn [andb].
  - apply Itoa_inj in E1, E2. split; auto.
  - split; [discriminate|]. intros [_ <-]. contradiction.
  - split; [discriminate|]. intros [<- _]. contradiction.
Qed.

Lemma matchAllowdRule_range_exact_witness :
  entryFor (Example.allow [rangeText 80 443]) Example.sg1
  /\ matchAllowdRule [Example.allow [rangeText 80 443]] Example.sg1 (Example.http 80 443)
     = true.
Proof.
  assert (E : entryFor (Example.allow [rangeText 80 443]) Example.sg1)
    by (split; reflexivity).
  split; [exact E|].
  apply (proj2 (matchAllowdRule_range_exact (Example.allow [rangeText 80 443]) Example.sg1
                  (Example.http 80 443) 80 443 E eq_refl ltac:(lia) ltac:(lia))).
  split; reflexivity.
Defined.

(** X14. An entry for the group whose ports are literal port numbers allows
    a rule exactly when both bounds of the rule are among those numbers; so
    the entry ["80"; "443"] allows the rules 80-443, 443-80, 80-80 and
    443-443 and no other. *)
Theorem matchAllowdRule_literals allowdRule sg rule (qs : list Z) :
  entryFor allowdRule sg -> Rule_Port allowdRule = map strconv.Itoa qs ->
  (forall q, In q qs -> 0 <= q) ->
  (matchAllowdRule [allowdRule] sg rule = true <->
   In (rules.PortRangeMin rule) qs /\ In (rules.PortRangeMax rule) qs).
Proof.
  intros [Ht Hs] HP Hq. cbn [matchAllowdRule].
  rewrite Ht, Hs, !String.eqb_refl, HP. cbn [andb].
  rewrite (matchPortRange_literals qs rule Hq).
  rewrite <- !In_map_Itoa, <- !contains_In.
  destruct (contains _ _), (contains _ _); cbn; intuition congruence.
Qed.

Lemma matchAllowdRule_literals_witness :
  entryFor (Example.allow (map strconv.Itoa [80; 443])) Example.sg1
  /\ matchAllowdRule [Example.allow (map strconv.Itoa [80; 443])] Example.sg1
                     (Example.http 443 80) = true.
Proof.
  assert (E : entryFor (Example.allow (map strconv.Itoa [80; 443])) Example.sg1)
    by (split; reflexivity).
  split; [exact E|].
  apply (proj2 (matchAllowdRule_literals (Example.allow (map strconv.Itoa [80; 443]))
                  Example.sg1 (Example.http 443 80) [80; 443] E eq_refl
                  ltac:(intros q [<- | [<- | []]]; lia))).
  split; [right; left; reflexivity | left; reflexivity].
Defined.

(** ** The policy pass on an empty audience, and with no match *)

Section PolicyEdges.

Variable timeLocalString : Z -> string.
Variable jsonFacts : groups.SecGroup -> option error.
Variable PrepareForEval : list string -> option error.
Variable Eval : list string -> groups.SecGroup -> error + list value.
Variable slackPostMessage :
  list event -> string -> string -> list slack.Attachment
  -> slack.PostMessageParameters -> option error.

Local Abbreviation policyGroups' := (policyGroups timeLocalString jsonFacts Eval).
Local Abbreviation policyPass' :=
  (policyPass timeLocalString jsonFacts PrepareForEval Eval slackPostMessage).

Lemma policyGroups_all_exempt query allowed_sg sgs : forall b st,
  nonExempt allowed_sg sgs = [] ->
  policyGroups' query sgs allowed_sg b st = (Some (b, None), st).
Proof.
  induction sgs as [|sg rest IH]; intros b st H; [reflexivity|].
  unfold nonExempt in H. cbn [filter] in H. cbn [policyGroups].
  destruct (contain allowed_sg (groups.ID sg)); cbn [negb] in H; [|discriminate].
  apply IH. exact H.
Qed.

(** X15. When the inventory has no group outside the dynamic allow-list, the
    policy pass puts no query, posts nothing and adds no finding; yet every
    policy is still prepared, and the pass returns the error of the first
    policy that cannot be prepared, or nil when all can. *)
Theorem policyPass_no_groups policies sgs allowed_sg st :
  nonExempt allowed_sg sgs = [] ->
  policyPass' policies sgs allowed_sg st
  = (Some (hd_error (flat_map (fun policy =>
                                 match PrepareForEval (policyPaths policy) with
                                 | Some err => [err]
                                 | None => []
                                 end) policies)), st).
Proof.
  intros H. induction policies as [|policy rest IH]; [reflexivity|].
  cbn [policyPass flat_map].
  destruct (PrepareForEval (policyPaths policy)) as [err|]; [reflexivity|].
  rewrite (policyGroups_all_exempt _ _ _ false st H). cbn [andb app].
  exact IH.
Qed.

Lemma findingsAmong_no_match projs query sgs :
  (forall sg, In sg sgs -> policyMatch Eval query sg = false) ->
  findingsAmong timeLocalString Eval projs query sgs = [].
Proof.
  induction sgs as [|sg rest IH]; intros H; [reflexivity|].
  unfold findingsAmong in *. cbn [flat_map].
  rewrite (H sg (or_introl eq_refl)). apply IH.
  intros sg' Hin. apply H. right. exact Hin.
Qed.

(** X16. When the predicate of no policy holds of any group outside the
    dynamic allow-list, the policy pass posts nothing and adds no finding,
    whether it runs to the end or stops on an error. *)
Theorem policyPass_no_match policies sgs allowed_sg st :
  (forall policy sg, In policy policies -> In sg (nonExempt allowed_sg sgs) ->
                     policyMatch Eval (policyPaths policy) sg = false) ->
  let r := policyPass' policies sgs allowed_sg st in
  Attachments (chk (snd r)) = Attachments (chk st)
  /\ forall ev, In ev (trace (snd r)) -> In ev (trace st) \/ isQuery ev = true.
Proof.
  intros H. cbv zeta.
  destruct (policyPass_spec timeLocalString jsonFacts PrepareForEval Eval slackPostMessage
              allowed_sg sgs policies st) as [_ [_ [T [A [HT [HTp [HA [HAp _]]]]]]]].
  assert (F : forall policy, In policy policies ->
                policyFindings timeLocalString Eval (Projects (chk st)) allowed_sg sgs policy
                = []).
  { intros policy Hin. apply findingsAmong_no_match.
    intros sg Hsg. exact (H policy sg Hin Hsg). }
  assert (FA : flat_map (policyFindings timeLocalString Eval (Projects (chk st))
                                        allowed_sg sgs) policies = []).
  { clear - F. induction policies as [|p rest IH]; [reflexivity|].
    cbn [flat_map]. rewrite (F p (or_introl eq_refl)). apply IH.
    intros q Hq. apply F. right. exact Hq. }
  split.
  - rewrite HA. rewrite FA in HAp. destruct HAp as [x Hx].
    destruct A; [apply app_nil_r | discriminate].
  - intros ev Hin. rewrite HT in Hin. apply in_app_or in Hin.
    destruct Hin as [Hin | Hin]; [left; exact Hin | right].
    apply (isPrefix_In _ _ _ HTp) in Hin.
    clear - F Hin. revert Hin. generalize (Attachments (chk st)).
    induction policies as [|p rest IH]; intros acc Hin; [destruct Hin|].
    cbn [expectedPolicyTrace] in Hin. unfold policyBatch in Hin.
    rewrite (F p (or_introl eq_refl)) in Hin. cbn [nonEmpty andb app] in Hin.
    apply in_app_or in Hin. destruct Hin as [Hin | Hin].
    + unfold policyQueries in Hin. apply in_map_iff in Hin.
      destruct Hin as [sg [<- _]]. reflexivity.
    + apply (IH (fun q Hq => F q (or_intror Hq)) _ Hin).
Qed.

End PolicyEdges.

Lemma policyPass_no_groups_witness :
  nonExempt ["sg-1"; "sg-9"] [Example.sg1; Example.sg9] = []
  /\ policyPass Example.timeLocalString Example.jsonFacts Example.PrepareForEval
                Example.Eval Example.slackPostMessage
                [Example.policyA; Example.policyB] [Example.sg1; Example.sg9]
                ["sg-1"; "sg-9"] (Example.start [])
     = (Some None, Example.start []).
Proof.
  split; [reflexivity|].
  exact (policyPass_no_groups Example.timeLocalString Example.jsonFacts
           Example.PrepareForEval Example.Eval Example.slackPostMessage
           [Example.policyA; Example.policyB] [Example.sg1; Example.sg9]
           ["sg-1"; "sg-9"] (Example.start []) eq_refl).
Defined.

Lemma policyPass_no_match_witness :
  (forall policy sg,
      In policy [Example.policyA; Example.policyB] ->
      In sg (nonExempt [] [Example.sg1; Example.sg9]) ->
      policyMatch Example.EvalNoResult (policyPaths policy) sg = false)
  /\ Attachments (chk (snd (policyPass Example.timeLocalString Example.jsonFacts
                                       Example.PrepareForEval Example.EvalNoResult
                                       Example.slackPostMessage
                                       [Example.policyA; Example.policyB]
                                       [Example.sg1; Example.sg9] []
                                       (Example.start [])))) = [].
Proof.
  assert (H : forall policy sg,
             In policy [Example.policyA; Example.policyB] ->
             In sg (nonExempt [] [Example.sg1; Example.sg9]) ->
             policyMatch Example.EvalNoResult (policyPaths policy) sg = false).
  { intros policy sg _ _. reflexivity. }
  split; [exact H|].
  exact (proj1 (policyPass_no_match Example.timeLocalString Example.jsonFacts
                  Example.PrepareForEval Example.EvalNoResult Example.slackPostMessage
                  [Example.policyA; Example.policyB] [Example.sg1; Example.sg9] []
                  (Example.start []) H)).
Defined.
